(** * Ultra Pro Voice Changer: the effect chain of [src/app/page.tsx]

    A shallow embedding of the page component's audio logic: the preset
    catalog, the component state, the refs to the Tone.js nodes, and the
    handlers and effects that build, retune and release the audio graph.

    JavaScript numbers are IEEE 754 binary64 values and are modelled by
    Rocq's primitive floats, so that literals such as [0.08] denote the
    same double as in the source.  Tone.js and the Web Audio API are
    external to the repository; they are modelled by a store of nodes
    (kind, option/parameter table, playback state, disposal flag), an
    ordered list of connections and a log of the calls made.  A write to
    a parameter stores the value written: the range checks of the library
    are not part of the model.  Asynchronous handlers run to completion,
    one after the other. *)

From Stdlib Require Import Floats Ascii.
From stdpp Require Import gmap strings list functions.

#[local] Set Warnings "-inexact-float".

(** ** Numbers *)

Abbreviation number := float.

Module JS.

(** [a > b] on numbers: false as soon as one side is NaN. *)
Definition gt (a b : number) : bool := PrimFloat.ltb b a.

(** [a == b] on numbers ([+0 == -0], [NaN] equals nothing). *)
Definition eq (a b : number) : bool := PrimFloat.eqb a b.

(** Truthiness of a number: [0], [-0] and [NaN] are falsy. *)
Definition truthy (a : number) : bool :=
  negb (PrimFloat.is_zero a || PrimFloat.is_nan a).

(** [a || b] on numbers. *)
Definition or (a b : number) : number := if truthy a then a else b.

(** [Math.max(a, b)]: NaN if either argument is NaN; [+0] is larger than
    [-0]. *)
Definition Math_max (a b : number) : number :=
  if PrimFloat.is_nan a || PrimFloat.is_nan b then PrimFloat.nan
  else if PrimFloat.ltb a b then b
  else if PrimFloat.ltb b a then a
  else if PrimFloat.is_zero a && PrimFloat.get_sign a then b
  else a.

End JS.

(** ** Presets and settings (page.tsx, lines 7-100) *)

Inductive PresetId := clean | deep | chipmunk | robot | radio | alien | echo.

#[global] Instance PresetId_eq_dec : EqDecision PresetId.
Proof. solve_decision. Defined.

Record EffectSettings := mkSettings {
  pitchSemitones : number;
  reverbWet : number;
  distortion : number;
  delayTime : number;
  delayFeedback : number;
  eqLow : number;
  eqMid : number;
  eqHigh : number;
  ringModHz : number
}.

Section Catalog.
Local Open Scope float_scope.

(** [PRESETS.<id>], read through the type [Record<PresetId, _>]. *)
Definition PRESETS (id : PresetId) : EffectSettings :=
  match id with
  | clean =>
      {| pitchSemitones := 0; reverbWet := 0.05; distortion := 0.0;
         delayTime := 0.0; delayFeedback := 0.0;
         eqLow := 0; eqMid := 0; eqHigh := 0; ringModHz := 0 |}
  | deep =>
      {| pitchSemitones := -6; reverbWet := 0.1; distortion := 0.05;
         delayTime := 0.0; delayFeedback := 0.0;
         eqLow := 3; eqMid := -2; eqHigh := -1; ringModHz := 0 |}
  | chipmunk =>
      {| pitchSemitones := 7; reverbWet := 0.12; distortion := 0.0;
         delayTime := 0.12; delayFeedback := 0.25;
         eqLow := -2; eqMid := 0; eqHigh := 2; ringModHz := 0 |}
  | robot =>
      {| pitchSemitones := 0; reverbWet := 0.08; distortion := 0.35;
         delayTime := 0; delayFeedback := 0;
         eqLow := 0; eqMid := 3; eqHigh := -2; ringModHz := 90 |}
  | radio =>
      {| pitchSemitones := -1; reverbWet := 0.03; distortion := 0.15;
         delayTime := 0; delayFeedback := 0;
         eqLow := -6; eqMid := 4; eqHigh := -4; ringModHz := 0 |}
  | alien =>
      {| pitchSemitones := -12; reverbWet := 0.18; distortion := 0.22;
         delayTime := 0.18; delayFeedback := 0.3;
         eqLow := 2; eqMid := -4; eqHigh := 3; ringModHz := 30 |}
  | echo =>
      {| pitchSemitones := 0; reverbWet := 0.2; distortion := 0.0;
         delayTime := 0.28; delayFeedback := 0.45;
         eqLow := 0; eqMid := 0; eqHigh := 1; ringModHz := 0 |}
  end.
End Catalog.

(** The property name of each member of the union type [PresetId]. *)
Definition PresetId_key (id : PresetId) : string :=
  match id with
  | clean => "clean" | deep => "deep" | chipmunk => "chipmunk"
  | robot => "robot" | radio => "radio" | alien => "alien" | echo => "echo"
  end.

(** The catalog's ids in the order of the object literal. *)
Definition PRESET_IDS : list PresetId :=
  [clean; deep; chipmunk; robot; radio; alien; echo].

(** The object [PRESETS] as it exists at run time, where the type
    annotation is erased: a table from property names to settings.
    [PRESETS_object !! k = None] is the [undefined] that [PRESETS[k]]
    evaluates to for a name that is not an own property. *)
Definition PRESETS_object : gmap string EffectSettings :=
  list_to_map ((λ id, (PresetId_key id, PRESETS id)) <$> PRESET_IDS).

(** [keyof EffectSettings]. *)
Inductive SettingKey :=
| k_pitchSemitones | k_reverbWet | k_distortion | k_delayTime
| k_delayFeedback | k_eqLow | k_eqMid | k_eqHigh | k_ringModHz.

#[global] Instance SettingKey_eq_dec : EqDecision SettingKey.
Proof. solve_decision. Defined.

Definition ALL_KEYS : list SettingKey :=
  [k_pitchSemitones; k_reverbWet; k_distortion; k_delayTime;
   k_delayFeedback; k_eqLow; k_eqMid; k_eqHigh; k_ringModHz].

(** [s[k]]. *)
Definition get_field (k : SettingKey) (s : EffectSettings) : number :=
  match k with
  | k_pitchSemitones => pitchSemitones s
  | k_reverbWet => reverbWet s
  | k_distortion => distortion s
  | k_delayTime => delayTime s
  | k_delayFeedback => delayFeedback s
  | k_eqLow => eqLow s
  | k_eqMid => eqMid s
  | k_eqHigh => eqHigh s
  | k_ringModHz => ringModHz s
  end.

(** [{ ...s, [key]: v }] (page.tsx, line 345): a fresh object with every
    property of [s], then [key] overwritten by [v]. *)
Definition spread_with (s : EffectSettings) (key : SettingKey) (v : number)
  : EffectSettings :=
  {| pitchSemitones := if decide (key = k_pitchSemitones) then v else pitchSemitones s;
     reverbWet := if decide (key = k_reverbWet) then v else reverbWet s;
     distortion := if decide (key = k_distortion) then v else distortion s;
     delayTime := if decide (key = k_delayTime) then v else delayTime s;
     delayFeedback := if decide (key = k_delayFeedback) then v else delayFeedback s;
     eqLow := if decide (key = k_eqLow) then v else eqLow s;
     eqMid := if decide (key = k_eqMid) then v else eqMid s;
     eqHigh := if decide (key = k_eqHigh) then v else eqHigh s;
     ringModHz := if decide (key = k_ringModHz) then v else ringModHz s |}.

(** ** The audio world: Tone.js nodes, connections and the call log *)

Inductive NodeKind :=
| PitchShift | Distortion | FeedbackDelay | Reverb | EQ3 | Gain | Analyser
| AMOscillator | Player | UserMedia.

(** Values found in the option objects handed to Tone.js. *)
Inductive OptVal :=
| VNum (x : number)
| VStr (s : string)
| VBool (b : bool).

(** Tone's [BasicPlaybackState]. *)
Inductive PlaybackState := started | stopped.

Record Node := mkNode {
  kind : NodeKind;
  params : gmap string OptVal;   (* options given at construction, then [set] / [.value =] *)
  state : PlaybackState;         (* sources only: oscillator, player *)
  disposed : bool;
  streamOpen : bool              (* [UserMedia] only: the microphone stream is held *)
}.

(** What a connection can start from or end in. *)
Inductive Endpoint :=
| ToneNode (id : nat)
| Tone_Destination                   (* [Tone.Destination], the audible output *)
| Tone_Destination_internal          (* [Tone.Destination._destination] *)
| MediaStreamDestination (id : nat). (* [ctx.createMediaStreamDestination()] *)

#[global] Instance Endpoint_eq_dec : EqDecision Endpoint.
Proof. solve_decision. Defined.

Definition Edge : Type := Endpoint * Endpoint.

Inductive Event :=
| ENew (id : nat) (k : NodeKind)
| ECreateMediaStreamDestination (id : nat)
| EConnect (src dst : Endpoint)
| EDisconnect (id : nat)
| ESet (id : nat) (name : string) (v : OptVal)
| EStart (id : nat)
| EStop (id : nat)
| EOpen (id : nat)
| EClose (id : nat)
| EDispose (id : nat).

(** The refs of the component that hold audio nodes (page.tsx, lines
    111-124). *)
Inductive RefName :=
| inputNodeRef | filePlayerRef | pitchShiftRef | ringModRef | ringGainRef
| distortionRef | delayRef | reverbRef | eqRef | analyserRef | finalGainRef
| mediaDestRef.

#[global] Instance RefName_eq_dec : EqDecision RefName.
Proof. solve_decision. Defined.

(** ** Recording objects *)

Record Blob := mkBlob { blob_size : nat; blob_type : string }.

Inductive RecordingState := inactive | recording.

Record MediaRecorder := mkRecorder {
  rec_stream : nat;          (* the media-stream destination it records *)
  rec_mimeType : string;     (* container chosen by the platform *)
  rec_state : RecordingState
}.

(** A file handed to the user through the temporary [<a download>]. *)
Record Download := mkDownload { dl_blob : Blob; dl_name : string }.

(** ** The whole state *)

(** React state of [HomePage] (page.tsx, lines 104-108). *)
Record UI := mkUI {
  isMicLive : bool;
  isPlayingFile : bool;
  isRecording : bool;
  preset : PresetId;
  settings : EffectSettings
}.

(** What the host decides: whether the audio context runs, whether the
    user grants the microphone, which nodes fail to dispose, and the
    container its recorder produces by default. *)
Record Host := mkHost {
  ctxRunning : bool;
  micGranted : bool;
  faulty : gset nat;
  defaultMime : string
}.

Record World := mkWorld {
  ui : UI;
  refs : RefName → option nat;
  mediaRecorderRef : option MediaRecorder;
  recordedChunksRef : list Blob;
  nodes : gmap nat Node;
  edges : list Edge;
  log : list Event;
  nextId : nat;
  host : Host;
  downloads : list Download
}.

Definition upd_ui (f : UI → UI) (w : World) : World :=
  mkWorld (f (ui w)) (refs w) (mediaRecorderRef w) (recordedChunksRef w)
          (nodes w) (edges w) (log w) (nextId w) (host w) (downloads w).
Definition upd_refs (f : (RefName → option nat) → (RefName → option nat))
  (w : World) : World :=
  mkWorld (ui w) (f (refs w)) (mediaRecorderRef w) (recordedChunksRef w)
          (nodes w) (edges w) (log w) (nextId w) (host w) (downloads w).
Definition upd_recorder (f : option MediaRecorder → option MediaRecorder)
  (w : World) : World :=
  mkWorld (ui w) (refs w) (f (mediaRecorderRef w)) (recordedChunksRef w)
          (nodes w) (edges w) (log w) (nextId w) (host w) (downloads w).
Definition upd_chunks (f : list Blob → list Blob) (w : World) : World :=
  mkWorld (ui w) (refs w) (mediaRecorderRef w) (f (recordedChunksRef w))
          (nodes w) (edges w) (log w) (nextId w) (host w) (downloads w).
Definition upd_nodes (f : gmap nat Node → gmap nat Node) (w : World) : World :=
  mkWorld (ui w) (refs w) (mediaRecorderRef w) (recordedChunksRef w)
          (f (nodes w)) (edges w) (log w) (nextId w) (host w) (downloads w).
Definition upd_edges (f : list Edge → list Edge) (w : World) : World :=
  mkWorld (ui w) (refs w) (mediaRecorderRef w) (recordedChunksRef w)
          (nodes w) (f (edges w)) (log w) (nextId w) (host w) (downloads w).
Definition upd_log (f : list Event → list Event) (w : World) : World :=
  mkWorld (ui w) (refs w) (mediaRecorderRef w) (recordedChunksRef w)
          (nodes w) (edges w) (f (log w)) (nextId w) (host w) (downloads w).
Definition upd_nextId (f : nat → nat) (w : World) : World :=
  mkWorld (ui w) (refs w) (mediaRecorderRef w) (recordedChunksRef w)
          (nodes w) (edges w) (log w) (f (nextId w)) (host w) (downloads w).
Definition upd_host (f : Host → Host) (w : World) : World :=
  mkWorld (ui w) (refs w) (mediaRecorderRef w) (recordedChunksRef w)
          (nodes w) (edges w) (log w) (nextId w) (f (host w)) (downloads w).
Definition upd_downloads (f : list Download → list Download) (w : World) : World :=
  mkWorld (ui w) (refs w) (mediaRecorderRef w) (recordedChunksRef w)
          (nodes w) (edges w) (log w) (nextId w) (host w) (f (downloads w)).

(** ** Computations: state passing with JavaScript exceptions *)

Inductive Exn :=
| ToneError (msg : string)      (* an assertion of the library failed *)
| NotAllowedError               (* microphone permission refused *)
| DisposeError (id : nat).      (* the disposal of node [id] failed *)

Inductive Completion (A : Type) :=
| Normal (a : A)
| Throw (e : Exn).
Arguments Normal {A} a.
Arguments Throw {A} e.

(** A statement run from a world: how it completes, and the world it
    leaves.  Mutations made before a throw stay. *)
Definition M (A : Type) : Type := World → Completion A * World.

#[global] Instance M_ret : MRet M := λ A a w, (Normal a, w).
#[global] Instance M_bind : MBind M := λ A B f m w,
  match m w with
  | (Normal a, w') => f a w'
  | (Throw e, w') => (Throw e, w')
  end.

Definition throw {A} (e : Exn) : M A := λ w, (Throw e, w).
Definition gets {A} (f : World → A) : M A := λ w, (Normal (f w), w).
Definition modify (f : World → World) : M unit := λ w, (Normal tt, f w).

(** [try { body } catch { handler }]. *)
Definition try_catch (body : M unit) (handler : Exn → M unit) : M unit :=
  λ w, match body w with
       | (Normal a, w') => (Normal a, w')
       | (Throw e, w') => handler e w'
       end.

(** The world a computation leaves, and how it completed. *)
Definition exec {A} (m : M A) (w : World) : World := (m w).2.
Definition completion {A} (m : M A) (w : World) : Completion A := (m w).1.

Definition emit (e : Event) : M unit := modify (upd_log (λ l, l ++ [e])).

(** [ref.current = v]. *)
Definition set_ref (r : RefName) (v : option nat) : M unit :=
  modify (upd_refs (λ f, <[r := v]> f)).

(** [ref.current?.method(...)]: nothing happens, and the arguments are
    not evaluated, when the ref is null. *)
Definition opt_call (r : RefName) (method : nat → M unit) : M unit :=
  cur ← gets (λ w, refs w r);
  match cur with
  | Some id => method id
  | None => mret tt
  end.

(** ** Tone.js and Web Audio calls *)

Definition with_params (f : gmap string OptVal → gmap string OptVal) (n : Node) : Node :=
  mkNode (kind n) (f (params n)) (state n) (disposed n) (streamOpen n).
Definition with_state (s : PlaybackState) (n : Node) : Node :=
  mkNode (kind n) (params n) s (disposed n) (streamOpen n).
Definition with_stream (b : bool) (n : Node) : Node :=
  mkNode (kind n) (params n) (state n) (disposed n) b.
Definition released (n : Node) : Node :=
  mkNode (kind n) (params n) stopped true false.

(** [await Tone.start()]: returns once the audio context runs. *)
Definition Tone_start : M unit :=
  modify (upd_host (λ h, mkHost true (micGranted h) (faulty h) (defaultMime h))).

(** [new Tone.<kind>(opts)]: a fresh node holding the given options. *)
Definition new_node (k : NodeKind) (opts : list (string * OptVal)) : M nat :=
  id ← gets nextId;
  modify (upd_nodes (λ m, <[id := mkNode k (list_to_map opts) stopped false false]> m)) ;;
  modify (upd_nextId S) ;;
  emit (ENew id k) ;;
  mret id.

(** [ctx.createMediaStreamDestination()]. *)
Definition createMediaStreamDestination : M nat :=
  id ← gets nextId;
  modify (upd_nextId S) ;;
  emit (ECreateMediaStreamDestination id) ;;
  mret id.

(** [a.connect(b)]: one more connection, after the existing ones. *)
Definition connect (a b : Endpoint) : M unit :=
  modify (upd_edges (λ l, l ++ [(a, b)])) ;;
  emit (EConnect a b).

(** [node.toDestination()]. *)
Definition toDestination (id : nat) : M unit :=
  connect (ToneNode id) Tone_Destination.

(** [src.connect(ref.current!)]: the library refuses a missing target. *)
Definition connect_to_ref (src : nat) (r : RefName) : M unit :=
  cur ← gets (λ w, refs w r);
  match cur with
  | Some dst => connect (ToneNode src) (ToneNode dst)
  | None => throw (ToneError "Cannot connect to undefined node")
  end.

(** [node.<name>.value = v], and one entry of [node.set({...})]. *)
Definition set_param (id : nat) (name : string) (v : OptVal) : M unit :=
  modify (upd_nodes (alter (with_params (λ p, <[name := v]> p)) id)) ;;
  emit (ESet id name v).

(** [node.set({ n1: v1, n2: v2, ... })]. *)
Fixpoint set (id : nat) (props : list (string * OptVal)) : M unit :=
  match props with
  | [] => mret tt
  | (name, v) :: rest => set_param id name v ;; set id rest
  end.

(** [node.state]; [None] stands for a missing value. *)
Definition node_state (id : nat) (w : World) : option PlaybackState :=
  state <$> nodes w !! id.

Definition start (id : nat) : M unit :=
  modify (upd_nodes (alter (with_state started) id)) ;;
  emit (EStart id).

Definition stop (id : nat) : M unit :=
  modify (upd_nodes (alter (with_state stopped) id)) ;;
  emit (EStop id).

(** [node.disconnect()]: drops the connections leaving the node. *)
Definition disconnect (id : nat) : M unit :=
  modify (upd_edges (filter (λ e : Edge, e.1 ≠ ToneNode id))) ;;
  emit (EDisconnect id).

(** [await mic.open()]: rejects when the user refuses the microphone. *)
Definition open (id : nat) : M unit :=
  emit (EOpen id) ;;
  granted ← gets (λ w, micGranted (host w));
  if granted : bool
  then modify (upd_nodes (alter (with_stream true) id))
  else throw NotAllowedError.

(** [mic.close()]: releases the microphone stream. *)
Definition close (id : nat) : M unit :=
  modify (upd_nodes (alter (with_stream false) id)) ;;
  emit (EClose id).

(** [node.dispose()]: stops and disconnects the node and releases what it
    holds, unless the host makes this disposal fail. *)
Definition dispose (id : nat) : M unit :=
  emit (EDispose id) ;;
  bad ← gets (λ w, bool_decide (id ∈ faulty (host w)));
  if bad : bool
  then throw (DisposeError id)
  else
    modify (upd_nodes (alter released id)) ;;
    modify (upd_edges (filter (λ e : Edge, e.1 ≠ ToneNode id))).

(** ** The component (page.tsx, lines 102-346) *)

Definition setIsMicLive (b : bool) : M unit :=
  modify (upd_ui (λ u, mkUI b (isPlayingFile u) (isRecording u) (preset u) (settings u))).
Definition setIsPlayingFile (b : bool) : M unit :=
  modify (upd_ui (λ u, mkUI (isMicLive u) b (isRecording u) (preset u) (settings u))).
Definition setIsRecording (b : bool) : M unit :=
  modify (upd_ui (λ u, mkUI (isMicLive u) (isPlayingFile u) b (preset u) (settings u))).
Definition setPreset (id : PresetId) : M unit :=
  modify (upd_ui (λ u, mkUI (isMicLive u) (isPlayingFile u) (isRecording u) id (settings u))).
(** [setSettings(f)], the updater form; [setSettings(v)] is
    [setSettings (λ _, v)]. *)
Definition setSettings (f : EffectSettings → EffectSettings) : M unit :=
  modify (upd_ui (λ u, mkUI (isMicLive u) (isPlayingFile u) (isRecording u) (preset u)
                            (f (settings u)))).

(** [startTone] (lines 131-133). *)
Definition startTone : M unit := Tone_start.

(** [buildGraph] (lines 137-181); [settings] is the value the mounting
    render closed over. *)
Definition buildGraph (settings : EffectSettings) : M unit :=
  startTone ;;
  pitch ← new_node PitchShift [("pitch", VNum (pitchSemitones settings))];
  toDestination pitch ;;
  distortion ← new_node Distortion
    [("distortion", VNum (distortion settings)); ("oversample", VStr "4x")];
  delay ← new_node FeedbackDelay
    [("delayTime", VNum (delayTime settings)); ("feedback", VNum (delayFeedback settings))];
  reverb ← new_node Reverb [("decay", VNum 2.4); ("wet", VNum (reverbWet settings))];
  eq ← new_node EQ3
    [("low", VNum (eqLow settings)); ("mid", VNum (eqMid settings));
     ("high", VNum (eqHigh settings))];
  finalGain ← new_node Gain [("gain", VNum 0.9)];
  analyser ← new_node Analyser [("type", VStr "fft"); ("size", VNum 64)];
  ringOsc ← new_node AMOscillator
    [("frequency", VNum (JS.or (ringModHz settings) 1)); ("type", VStr "sine");
     ("harmonicity", VNum 1.0)];
  ringGain ← new_node Gain
    [("gain", VNum (if JS.gt (ringModHz settings) 0 then 0.5 else 0)%float)];
  connect (ToneNode ringOsc) (ToneNode ringGain) ;;
  connect (ToneNode pitch) (ToneNode distortion) ;;
  connect (ToneNode ringGain) (ToneNode distortion) ;;
  connect (ToneNode distortion) (ToneNode delay) ;;
  connect (ToneNode delay) (ToneNode reverb) ;;
  connect (ToneNode reverb) (ToneNode eq) ;;
  connect (ToneNode eq) (ToneNode finalGain) ;;
  connect (ToneNode finalGain) (ToneNode analyser) ;;
  connect (ToneNode finalGain) Tone_Destination ;;
  set_ref pitchShiftRef (Some pitch) ;;
  set_ref ringModRef (Some ringOsc) ;;
  set_ref ringGainRef (Some ringGain) ;;
  set_ref distortionRef (Some distortion) ;;
  set_ref delayRef (Some delay) ;;
  set_ref reverbRef (Some reverb) ;;
  set_ref eqRef (Some eq) ;;
  set_ref analyserRef (Some analyser) ;;
  set_ref finalGainRef (Some finalGain) ;;
  dest ← createMediaStreamDestination;
  set_ref mediaDestRef (Some dest) ;;
  connect Tone_Destination_internal (MediaStreamDestination dest).

(** The mounting effect (lines 136-183): [buildGraph()] with the settings
    of the first render. *)
Definition useEffect_mount : M unit :=
  s ← gets (λ w, settings (ui w));
  buildGraph s.

(** The cleanup returned by the mounting effect (lines 185-199). *)
Definition useEffect_mount_cleanup : M unit :=
  try_catch
    (opt_call filePlayerRef dispose ;;
     opt_call inputNodeRef dispose ;;
     opt_call pitchShiftRef dispose ;;
     opt_call ringModRef dispose ;;
     opt_call ringGainRef dispose ;;
     opt_call distortionRef dispose ;;
     opt_call delayRef dispose ;;
     opt_call reverbRef dispose ;;
     opt_call eqRef dispose ;;
     opt_call analyserRef dispose ;;
     opt_call finalGainRef dispose)
    (λ _, mret tt).

(** The ring modulation block of the effect on [settings] (lines
    210-221). *)
Definition ring_rule (s : EffectSettings) : M unit :=
  ringMod ← gets (λ w, refs w ringModRef);
  ringGain ← gets (λ w, refs w ringGainRef);
  match ringMod, ringGain with
  | Some osc, Some gain =>
      set_param osc "frequency" (VNum (JS.Math_max 0.0001 (ringModHz s))) ;;
      if JS.gt (ringModHz s) 0 then
        st ← gets (node_state osc);
        match st with
        | None | Some stopped => start osc
        | Some started => mret tt
        end ;;
        set_param gain "gain" (VNum 0.5)
      else
        set_param gain "gain" (VNum 0.0) ;;
        st ← gets (node_state osc);
        match st with
        | Some started => stop osc
        | _ => mret tt
        end
  | _, _ => mret tt
  end.

(** The effect on [settings] (lines 204-222): retunes the nodes in place.
    The spec calls it applySettings. *)
Definition useEffect_settings : M unit :=
  s ← gets (λ w, settings (ui w));
  opt_call pitchShiftRef (λ n, set n [("pitch", VNum (pitchSemitones s))]) ;;
  opt_call distortionRef (λ n, set n [("distortion", VNum (distortion s))]) ;;
  opt_call delayRef (λ n, set n [("delayTime", VNum (delayTime s));
                                 ("feedback", VNum (delayFeedback s))]) ;;
  opt_call reverbRef (λ n, set n [("wet", VNum (reverbWet s))]) ;;
  opt_call eqRef (λ n, set n [("low", VNum (eqLow s)); ("mid", VNum (eqMid s));
                              ("high", VNum (eqHigh s))]) ;;
  ring_rule s.

(** [applyPreset] (lines 268-271). *)
Definition applyPreset (id : PresetId) : M unit :=
  setPreset id ;;
  setSettings (λ _, PRESETS id).

(** [setSetting] (lines 344-346). *)
Definition setSetting (key : SettingKey) (v : number) : M unit :=
  setSettings (λ s, spread_with s key v).

(** A state change followed by the render it schedules: once the new
    settings are committed, React runs the effect that depends on them. *)
Definition commit (change : M unit) : M unit :=
  change ;; useEffect_settings.

(** applySettings of the spec: the given value becomes the current
    settings and the effect retunes the graph. *)
Definition applySettings (s : EffectSettings) : M unit :=
  commit (setSettings (λ _, s)).

(** [handleMicToggle] (lines 273-287). *)
Definition handleMicToggle : M unit :=
  startTone ;;
  live ← gets (λ w, isMicLive (ui w));
  if negb live then
    mic ← new_node UserMedia
      [("echoCancellation", VBool false); ("noiseSuppression", VBool false)];
    open mic ;;
    connect_to_ref mic pitchShiftRef ;;
    set_ref inputNodeRef (Some mic) ;;
    setIsMicLive true
  else
    opt_call inputNodeRef disconnect ;;
    opt_call inputNodeRef close ;;
    set_ref inputNodeRef None ;;
    setIsMicLive false.

(** [handleFileSelect] (lines 289-300); [url] is the object URL made for
    the chosen file. *)
Definition handleFileSelect (url : string) : M unit :=
  startTone ;;
  previous ← gets (λ w, refs w filePlayerRef);
  match previous with
  | Some old => stop old ;; disconnect old ;; dispose old
  | None => mret tt
  end ;;
  player ← new_node Player
    [("url", VStr url); ("autostart", VBool false); ("loop", VBool false)];
  connect_to_ref player pitchShiftRef ;;
  set_ref filePlayerRef (Some player).

(** [handlePlayPause] (lines 302-313).  The [onstop] callback it
    registers on the player is not part of the model. *)
Definition handlePlayPause : M unit :=
  current ← gets (λ w, refs w filePlayerRef);
  match current with
  | None => mret tt
  | Some player =>
      startTone ;;
      playing ← gets (λ w, isPlayingFile (ui w));
      if playing : bool then
        stop player ;; setIsPlayingFile false
      else
        start player ;; setIsPlayingFile true
  end.

(** ** Recording (lines 315-342) *)

Definition is_colon_or_dot (c : ascii) : bool :=
  bool_decide (c = ":"%char) || bool_decide (c = "."%char).

(** [ts.replace(/[:.]/g, "-")]. *)
Fixpoint replace_colon_dot (ts : string) : string :=
  match ts with
  | EmptyString => EmptyString
  | String c rest =>
      String (if is_colon_or_dot c then "-"%char else c) (replace_colon_dot rest)
  end.

(** The [download] attribute set by [rec.onstop] (lines 328-329); [iso] is
    what [new Date().toISOString()] returned. *)
Definition download_name (iso : string) : string :=
  "ultra-voice-" +:+ replace_colon_dot iso +:+ ".webm".

(** [startRecording] (lines 315-337), up to the registration of the two
    handlers below. *)
Definition startRecording : M unit :=
  dest ← gets (λ w, refs w mediaDestRef);
  match dest with
  | None => mret tt
  | Some d =>
      modify (upd_chunks (λ _, [])) ;;
      mime ← gets (λ w, defaultMime (host w));
      modify (upd_recorder (λ _, Some (mkRecorder d mime recording))) ;;
      setIsRecording true
  end.

(** [rec.ondataavailable] (lines 320-322). *)
Definition ondataavailable (data : Blob) : M unit :=
  if decide (0 < blob_size data)
  then modify (upd_chunks (λ l, l ++ [data]))
  else mret tt.

(** [rec.onstop] (lines 323-334): one blob out of the chunks, saved under
    a name made from the clock. *)
Definition onstop (iso : string) : M unit :=
  chunks ← gets recordedChunksRef;
  let blob := mkBlob (sum_list (blob_size <$> chunks)) "audio/webm" in
  modify (upd_downloads (λ l, l ++ [mkDownload blob (download_name iso)])).

(** [stopRecording] (lines 339-342); stopping a recorder fires its
    [onstop] handler, which reads the clock. *)
Definition stopRecording (iso : string) : M unit :=
  r ← gets mediaRecorderRef;
  match r with
  | Some rec =>
      modify (upd_recorder (λ _, Some (mkRecorder (rec_stream rec) (rec_mimeType rec) inactive))) ;;
      onstop iso
  | None => mret tt
  end ;;
  setIsRecording false.

(** ** A fresh page *)

Definition initial_host : Host := mkHost false true ∅ "audio/webm".

(** The state of the first render: no node, every ref null, the "clean"
    preset selected. *)
Definition initial_world (h : Host) : World :=
  mkWorld (mkUI false false false clean (PRESETS clean))
          (λ _, None) None [] ∅ [] [] 0 h [].

(** * Observations, relations between worlds and the spec's wordings *)

(** The value read back from [node.<name>] (or [node.<name>.value]). *)
Definition param_of (m : gmap nat Node) (id : nat) (name : string) : option OptVal :=
  m !! id ≫= λ n, params n !! name.

Definition get_param (id : nat) (name : string) (w : World) : option OptVal :=
  param_of (nodes w) id name.

(** The calls made between two worlds, oldest first. *)
Definition calls_since (w w' : World) : list Event :=
  drop (length (log w)) (log w').

Definition inserts (props : list (string * OptVal)) (p : gmap string OptVal)
  : gmap string OptVal :=
  foldl (λ p nv, <[nv.1 := nv.2]> p) p props.

(** The world after [node.set(props)] on node [id]. *)
Definition retuned (id : nat) (props : list (string * OptVal)) (w : World) : World :=
  upd_log (λ l, l ++ ((λ nv, ESet id nv.1 nv.2) <$> props))
          (upd_nodes (alter (with_params (inserts props)) id) w).

(** The world after [ref.current?.set(props)]. *)
Definition opt_retuned (r : RefName) (props : list (string * OptVal)) (w : World) : World :=
  match refs w r with
  | Some id => retuned id props w
  | None => w
  end.

Definition is_ESet (e : Event) : Prop :=
  match e with ESet _ _ _ => True | _ => False end.

(** What the wiring sees of a node: everything but its parameters and
    its playback state. *)
Definition node_frame (n : Node) : NodeKind * bool * bool :=
  (kind n, disposed n, streamOpen n).

(** [w'] is [w] after [set] calls only: made on nodes held by the refs
    [rs], and on parameters among [names]. *)
Record retuned_only (rs : list RefName) (names : list string) (w w' : World) : Prop := {
  ro_ui : ui w' = ui w;
  ro_refs : refs w' = refs w;
  ro_edges : edges w' = edges w;
  ro_nextId : nextId w' = nextId w;
  ro_host : host w' = host w;
  ro_recorder : mediaRecorderRef w' = mediaRecorderRef w;
  ro_chunks : recordedChunksRef w' = recordedChunksRef w;
  ro_downloads : downloads w' = downloads w;
  ro_frame : ∀ j, node_frame <$> nodes w' !! j = node_frame <$> nodes w !! j;
  ro_state : ∀ j, node_state j w' = node_state j w;
  ro_params : ∀ j name, name ∉ names → get_param j name w' = get_param j name w;
  ro_untouched : ∀ j, (∀ r, r ∈ rs → refs w r ≠ Some j) → nodes w' !! j = nodes w !! j;
  ro_log : ∃ evs, log w' = log w ++ evs ∧ Forall is_ESet evs
}.

Definition chain_refs : list RefName :=
  [pitchShiftRef; distortionRef; delayRef; reverbRef; eqRef].

Definition chain_names : list string :=
  ["pitch"; "distortion"; "delayTime"; "feedback"; "wet"; "low"; "mid"; "high"].

(** The world after the five [set] calls of the effect (lines 205-209). *)
Definition chain_world (s : EffectSettings) (w : World) : World :=
  opt_retuned eqRef [("low", VNum (eqLow s)); ("mid", VNum (eqMid s));
                     ("high", VNum (eqHigh s))]
   (opt_retuned reverbRef [("wet", VNum (reverbWet s))]
     (opt_retuned delayRef [("delayTime", VNum (delayTime s));
                            ("feedback", VNum (delayFeedback s))]
       (opt_retuned distortionRef [("distortion", VNum (distortion s))]
         (opt_retuned pitchShiftRef [("pitch", VNum (pitchSemitones s))] w)))).

(** The world after the ring modulation block, for an oscillator whose
    [state] reads [st]. *)
Definition ring_world (s : EffectSettings) (osc gain : nat)
  (st : option PlaybackState) (w : World) : World :=
  let w1 := exec (set_param osc "frequency" (VNum (JS.Math_max 0.0001 (ringModHz s)))) w in
  if JS.gt (ringModHz s) 0 then
    exec (set_param gain "gain" (VNum 0.5))
         (match st with Some started => w1 | _ => exec (start osc) w1 end)
  else
    let w2 := exec (set_param gain "gain" (VNum 0.0)) w1 in
    match st with Some started => exec (stop osc) w2 | _ => w2 end.

Definition tuned_refs : list RefName := chain_refs ++ [ringModRef; ringGainRef].

Definition is_tuning (e : Event) : Prop :=
  match e with ESet _ _ _ | EStart _ | EStop _ => True | _ => False end.

(** [w'] is [w] after parameter writes on the nodes of [tuned_refs] and
    starts or stops of the ring oscillator, and nothing else. *)
Record tuned (w w' : World) : Prop := {
  tu_ui : ui w' = ui w;
  tu_refs : refs w' = refs w;
  tu_edges : edges w' = edges w;
  tu_nextId : nextId w' = nextId w;
  tu_host : host w' = host w;
  tu_recorder : mediaRecorderRef w' = mediaRecorderRef w;
  tu_chunks : recordedChunksRef w' = recordedChunksRef w;
  tu_downloads : downloads w' = downloads w;
  tu_frame : ∀ j, node_frame <$> nodes w' !! j = node_frame <$> nodes w !! j;
  tu_state : ∀ j, refs w ringModRef ≠ Some j → node_state j w' = node_state j w;
  tu_untouched : ∀ j, (∀ r, r ∈ tuned_refs → refs w r ≠ Some j) →
                      nodes w' !! j = nodes w !! j;
  tu_log : ∃ evs, log w' = log w ++ evs ∧ Forall is_tuning evs
}.

(** The page once the mounting effect has run on a fresh page. *)
Definition built_world : World := exec useEffect_mount (initial_world initial_host).

Definition is_start_of (id : nat) (e : Event) : bool :=
  match e with EStart j => bool_decide (j = id) | _ => false end.

Definition is_stop_of (id : nat) (e : Event) : bool :=
  match e with EStop j => bool_decide (j = id) | _ => false end.

Fixpoint count_calls (p : Event → bool) (evs : list Event) : nat :=
  match evs with
  | [] => 0
  | e :: rest => (if p e then 1 else 0) + count_calls p rest
  end.

(** The calls of the ring modulation block. *)
Definition ring_calls (s : EffectSettings) (osc gain : nat)
  (st : option PlaybackState) : list Event :=
  if JS.gt (ringModHz s) 0 then
    ESet osc "frequency" (VNum (JS.Math_max 0.0001 (ringModHz s)))
    :: match st with Some started => [] | _ => [EStart osc] end
    ++ [ESet gain "gain" (VNum 0.5)]
  else
    [ESet osc "frequency" (VNum (JS.Math_max 0.0001 (ringModHz s)));
     ESet gain "gain" (VNum 0.0)]
    ++ match st with Some started => [EStop osc] | _ => [] end.











(** The refs the cleanup goes through, in its order (lines 187-197). *)
Definition cleanup_order : list RefName :=
  [filePlayerRef; inputNodeRef; pitchShiftRef; ringModRef; ringGainRef;
   distortionRef; delayRef; reverbRef; eqRef; analyserRef; finalGainRef].

(** The nodes held by these refs, in the same order. *)
Definition held (w : World) : list nat := omap (refs w) cleanup_order.

(** The nodes whose disposal is attempted: up to and including the first
    one that fails. *)
Fixpoint attempted (bad : gset nat) (ids : list nat) : list nat :=
  match ids with
  | [] => []
  | id :: rest => id :: if bool_decide (id ∈ bad) then [] else attempted bad rest
  end.

(** The nodes whose disposal succeeds: the ones before the first failure. *)
Fixpoint good_prefix (bad : gset nat) (ids : list nat) : list nat :=
  match ids with
  | [] => []
  | id :: rest => if bool_decide (id ∈ bad) then [] else id :: good_prefix bad rest
  end.

(** [r1.current?.dispose(); r2.current?.dispose(); ...] *)
Fixpoint dispose_seq (rs : list RefName) : M unit :=
  match rs with
  | [] => mret tt
  | r :: rest => opt_call r dispose ;; dispose_seq rest
  end.

Definition release_all (ids : list nat) (m : gmap nat Node) : gmap nat Node :=
  foldl (λ m id, alter released id m) m ids.

(** A page whose pitch shifter (node 0) cannot be disposed. *)
Definition pitch_fault_world : World :=
  exec useEffect_mount (initial_world (mkHost false true {[0]} "audio/webm")).

(** The built page with the microphone live. *)
Definition mic_world : World := exec handleMicToggle built_world.

Definition is_dispose_of (id : nat) (e : Event) : bool :=
  match e with EDispose j => bool_decide (j = id) | _ => false end.

Definition is_start (e : Event) : bool :=
  match e with EStart _ => true | _ => false end.

(** [applyPreset] as it runs, with the annotation [id: PresetId] erased:
    [id] is any string, and what [setPreset] and [setSettings] receive is
    [id] and [PRESETS[id]], the latter [undefined] (here [None]) when the
    catalog has no such property.  The function has no [throw]. *)
Definition applyPreset_erased (id : string) : Completion (string * option EffectSettings) :=
  Normal (id, PRESETS_object !! id).

(** The name as the spec words it, for a platform whose default
    recording container has extension [ext]. *)
Definition spec_download_name (iso ext : string) : string :=
  "ultra-voice-" +:+ replace_colon_dot iso +:+ "." +:+ ext.

Fixpoint chars (s : string) : list ascii :=
  match s with
  | EmptyString => []
  | String c rest => c :: chars rest
  end.

(** What a user or the host can make the page do once it is mounted,
    its unmounting apart. *)
Inductive Action :=
| ApplySettings (s : EffectSettings)
| ChoosePreset (id : PresetId)
| MoveSlider (key : SettingKey) (v : number)
| ToggleMic
| SelectFile (url : string)
| PlayPause
| StartRecording
| DataAvailable (data : Blob)
| StopRecording (iso : string).

Definition perform (a : Action) : M unit :=
  match a with
  | ApplySettings s => applySettings s
  | ChoosePreset id => commit (applyPreset id)
  | MoveSlider key v => commit (setSetting key v)
  | ToggleMic => handleMicToggle
  | SelectFile url => handleFileSelect url
  | PlayPause => handlePlayPause
  | StartRecording => startRecording
  | DataAvailable data => ondataavailable data
  | StopRecording iso => stopRecording iso
  end.

Definition perform_all (acts : list Action) (w : World) : World :=
  foldl (λ w a, exec (perform a) w) w acts.

(** The call [e] names node [id]. *)
Definition about (id : nat) (e : Event) : Prop :=
  match e with
  | ENew j _ | ECreateMediaStreamDestination j | EDisconnect j | ESet j _ _
  | EStart j | EStop j | EOpen j | EClose j | EDispose j => j = id
  | EConnect a b => a = ToneNode id ∨ b = ToneNode id
  end.

(** [m] keeps the invariant [I], whether it returns or throws, and what
    it returns satisfies [P]. *)
Definition keeps (I : World → Prop) {A} (m : M A) (P : A → Prop) : Prop :=
  ∀ w, I w → I (exec m w) ∧ ∀ a, completion m w = Normal a → P a.

(** The final gain [fg] is the node [n0], held by its ref and by no other,
    and the calls made since the log read [L0] do not name it. *)
Definition final_gain_kept (fg : nat) (n0 : Node) (L0 : list Event) (w : World) : Prop :=
  refs w finalGainRef = Some fg
  ∧ nodes w !! fg = Some n0
  ∧ fg < nextId w
  ∧ (∀ r, r ≠ finalGainRef → refs w r ≠ Some fg)
  ∧ ∃ evs, log w = L0 ++ evs ∧ Forall (λ e, ¬ about fg e) evs.

(** * The rest of the page: sessions, sliders, buttons, the visualizer *)

(** ** Recording sessions *)

(** The [dataavailable] events of a recording, in order. *)
Fixpoint deliver (datas : list Blob) : M unit :=
  match datas with
  | [] => mret tt
  | d :: rest => ondataavailable d ;; deliver rest
  end.

(** Pressing Record, the chunks the recorder delivers, pressing Stop. *)
Definition record_session (datas : list Blob) (iso : string) : M unit :=
  startRecording ;; deliver datas ;; stopRecording iso.

Definition nonempty_chunk (d : Blob) : Prop := 0 < blob_size d.

(** ** The microphone *)

(** The page after the microphone was switched on, for a graph whose
    entry node is [pitch]. *)
Definition mic_on_world (pitch : nat) (w : World) : World :=
  let mic := nextId w in
  mkWorld
    (mkUI true (isPlayingFile (ui w)) (isRecording (ui w)) (preset (ui w))
          (settings (ui w)))
    (<[inputNodeRef := Some mic]> (refs w))
    (mediaRecorderRef w) (recordedChunksRef w)
    (alter (with_stream true) mic
       (<[mic := mkNode UserMedia
                   (list_to_map [("echoCancellation", VBool false);
                                 ("noiseSuppression", VBool false)])
                   stopped false false]> (nodes w)))
    (edges w ++ [(ToneNode mic, ToneNode pitch)])
    (log w ++ [ENew mic UserMedia; EOpen mic; EConnect (ToneNode mic) (ToneNode pitch)])
    (S mic)
    (mkHost true (micGranted (host w)) (faulty (host w)) (defaultMime (host w)))
    (downloads w).

(** ** The sliders (page.tsx, lines 407-423) *)

Record Range := mkRange { r_min : number; r_max : number; r_step : number }.

(** The [min], [max] and [step] of the slider of each setting. *)
Definition slider_range (k : SettingKey) : Range :=
  match k with
  | k_pitchSemitones => mkRange (-12) 12 1
  | k_reverbWet => mkRange 0 1 0.01
  | k_distortion => mkRange 0 1 0.01
  | k_delayTime => mkRange 0 0.5 0.01
  | k_delayFeedback => mkRange 0 0.9 0.01
  | k_ringModHz => mkRange 0 200 1
  | k_eqLow | k_eqMid | k_eqHigh => mkRange (-12) 12 1
  end.

(** [min <= v && v <= max] for the slider of [k]. *)
Definition in_range (k : SettingKey) (v : number) : bool :=
  PrimFloat.leb (r_min (slider_range k)) v && PrimFloat.leb v (r_max (slider_range k)).

Definition settings_in_range (s : EffectSettings) : Prop :=
  ∀ k, in_range k (get_field k s) = true.

(** An operation whose value, if it carries one, is one a slider can
    deliver. *)
Definition within_sliders (a : Action) : Prop :=
  match a with
  | ApplySettings s => settings_in_range s
  | MoveSlider key v => in_range key v = true
  | _ => True
  end.

(** ** The visualizer (page.tsx, lines 225-266) *)

(** The canvas element behind [canvasRef]: its size, and whether
    [getContext("2d")] gives a context. *)
Record Canvas := mkCanvas {
  cv_width : number;
  cv_height : number;
  cv_has2d : bool
}.

(** The calls made on the 2D context. *)
Inductive DrawCmd :=
| clearRect (x y w h : number)
| createLinearGradient (x0 y0 x1 y1 : number)
| addColorStop (offset : number) (color : string)
| set_strokeStyle_grad
| set_lineWidth (n : number)
| beginPath
| moveTo (x y : number)
| lineTo (x y : number)
| stroke.

(** The loop counter [i] and [data.length] as numbers. *)
Definition of_index (i : nat) : number :=
  PrimFloat.of_uint63 (Uint63.of_Z (Z.of_nat i)).

(** The point plotted for bin [i] holding [d] (lines 251-254). *)
Definition plot_x (len : nat) (w : number) (i : nat) : number :=
  (of_index i / (of_index len - 1) * w)%float.
Definition plot_y (h d : number) : number :=
  (h - (d + 140) / 140 * h)%float.

(** The [for] loop (lines 250-257), from index [i] on, over the bins
    that remain. *)
Fixpoint plot (len : nat) (w h : number) (i : nat) (rest : list number) : list DrawCmd :=
  match rest with
  | [] => []
  | d :: rest' =>
      (if bool_decide (i = 0%nat) then moveTo (plot_x len w i) (plot_y h d)
       else lineTo (plot_x len w i) (plot_y h d))
      :: plot len w h (S i) rest'
  end.

(** The calls of one run of [draw] on the context (lines 243-258). *)
Definition paint (c : Canvas) (data : list number) : list DrawCmd :=
  let w := cv_width c in
  let h := cv_height c in
  [clearRect 0 0 w h;
   createLinearGradient 0 0 w 0;
   addColorStop 0 "#6ee7b7";
   addColorStop 1 "#93c5fd";
   set_strokeStyle_grad;
   set_lineWidth 2;
   beginPath]
  ++ plot (length data) w h 0 data
  ++ [stroke].

(** The effect's variable [raf], the frame callbacks the browser holds
    for this effect (all of them are [draw]), the last handle the browser
    gave out, and everything drawn so far. *)
Record Vis := mkVis {
  canvasRef : option Canvas;
  raf : nat;
  pending : list nat;
  last_handle : nat;
  painted : list DrawCmd
}.

(** [requestAnimationFrame(draw)]: a fresh handle, the callback queued. *)
Definition requestAnimationFrame (v : Vis) : nat * Vis :=
  let h := S (last_handle v) in
  (h, mkVis (canvasRef v) (raf v) (pending v ++ [h]) h (painted v)).

Definition cancelAnimationFrame (h : nat) (v : Vis) : Vis :=
  mkVis (canvasRef v) (raf v) (filter (λ h', h' ≠ h) (pending v)) (last_handle v)
        (painted v).

(** [raf = requestAnimationFrame(draw)]. *)
Definition request_next (v : Vis) : Vis :=
  let '(h, v') := requestAnimationFrame v in
  mkVis (canvasRef v') h (pending v') (last_handle v') (painted v').

(** [draw] (lines 227-261); [analyser] is [None] when [analyserRef] is
    null and otherwise what [analyser.getValue()] returns. *)
Definition draw (analyser : option (list number)) (v : Vis) : Vis :=
  match canvasRef v, analyser with
  | Some canvas, Some data =>
      if cv_has2d canvas then
        request_next
          (mkVis (canvasRef v) (raf v) (pending v) (last_handle v)
                 (painted v ++ paint canvas data))
      else request_next v
  | _, _ => request_next v
  end.


(** The visualizer effect at mount (lines 225-226, 263). *)
Definition useEffect_visualizer (canvas : option Canvas) (h0 : nat) : Vis :=
  request_next (mkVis canvas 0 [] h0 []).

(** Its cleanup (line 264). *)
Definition useEffect_visualizer_cleanup (v : Vis) : Vis :=
  cancelAnimationFrame (raf v) v.

(** One animation frame of the browser: the callbacks queued before the
    frame run, each once. *)
Definition animation_frame (analyser : option (list number)) (v : Vis) : Vis :=
  foldl (λ v _, draw analyser v)
        (mkVis (canvasRef v) (raf v) [] (last_handle v) (painted v))
        (pending v).

Definition animation_frames (inputs : list (option (list number))) (v : Vis) : Vis :=
  foldl (λ v a, animation_frame a v) v inputs.

(** Exactly one frame callback is queued, the one [raf] names, and it is
    the last handle given out. *)
Definition one_pending (v : Vis) : Prop :=
  pending v = [raf v] ∧ raf v = last_handle v.

(** ** The preset buttons (page.tsx, lines 396-404) *)

(** [String.prototype.toUpperCase] on ASCII text. *)
Definition upper_ascii (c : ascii) : ascii :=
  let n := nat_of_ascii c in
  if (97 <=? n)%nat && (n <=? 122)%nat then ascii_of_nat (n - 32) else c.

Fixpoint toUpperCase (s : string) : string :=
  match s with
  | EmptyString => EmptyString
  | String c rest => String (upper_ascii c) (toUpperCase rest)
  end.

(** One rendered button: its React key, its text, whether it carries the
    highlighted class, and the preset its click applies. *)
Record PresetButton := mkPresetButton {
  pb_key : string;
  pb_label : string;
  pb_highlighted : bool;
  pb_click : PresetId
}.

(** [Object.keys(PRESETS).map(...)] under the current [preset]. *)
Definition preset_buttons (u : UI) : list PresetButton :=
  (λ id, mkPresetButton (PresetId_key id) (toUpperCase (PresetId_key id))
                        (bool_decide (preset u = id)) id) <$> PRESET_IDS.

(** A click on a rendered button. *)
Definition click (b : PresetButton) : M unit := commit (applyPreset (pb_click b)).

(** * Reasoning about computations *)

Section Running.
Context {A B : Type}.

Lemma bind_run (m : M A) (f : A → M B) w a w' :
  m w = (Normal a, w') → (m ≫= f) w = f a w'.
Proof. intros H. unfold mbind, M_bind. by rewrite H. Qed.

Lemma bind_throw (m : M A) (f : A → M B) w e w' :
  m w = (Throw e, w') → (m ≫= f) w = (Throw e, w').
Proof. intros H. unfold mbind, M_bind. by rewrite H. Qed.
End Running.

(** ** Parameters and states under the updates of the node store *)

Section Store.
Implicit Types (m : gmap nat Node) (id j : nat) (name : string).

Lemma param_of_alter_params F id m j name :
  param_of (alter (with_params F) id m) j name =
  if decide (id = j) then m !! j ≫= λ n, F (params n) !! name
  else param_of m j name.
Proof.
  unfold param_of. rewrite lookup_alter. destruct (decide (id = j)) as [->|]; [|done].
  by destruct (m !! j).
Qed.

Lemma param_of_alter_insert_ne id m j name name' v :
  name' ≠ name →
  param_of (alter (with_params (λ p, <[name' := v]> p)) id m) j name = param_of m j name.
Proof.
  intros Hne. rewrite param_of_alter_params. case_decide; [|done].
  unfold param_of. destruct (m !! j); [|done]. cbn. by rewrite lookup_insert_ne.
Qed.

Lemma param_of_alter_insert_eq id m name v :
  is_Some (m !! id) →
  param_of (alter (with_params (λ p, <[name := v]> p)) id m) id name = Some v.
Proof.
  intros [n Hn]. rewrite param_of_alter_params, decide_True by done.
  rewrite Hn. cbn. by rewrite lookup_insert_eq.
Qed.

Lemma param_of_alter_state s id m j name :
  param_of (alter (with_state s) id m) j name = param_of m j name.
Proof.
  unfold param_of. rewrite lookup_alter. destruct (decide (id = j)) as [->|]; [|done].
  by destruct (m !! j).
Qed.

Lemma state_alter_params F id m j :
  state <$> alter (with_params F) id m !! j = state <$> m !! j.
Proof.
  rewrite lookup_alter. destruct (decide (id = j)) as [->|]; [|done].
  by destruct (m !! j).
Qed.

Lemma state_alter_state s id m :
  is_Some (m !! id) → state <$> alter (with_state s) id m !! id = Some s.
Proof. intros [n Hn]. by rewrite lookup_alter, decide_True, Hn. Qed.

Lemma is_Some_alter (f : Node → Node) id m j :
  is_Some (alter f id m !! j) ↔ is_Some (m !! j).
Proof.
  rewrite lookup_alter. destruct (decide (id = j)) as [->|]; [|done].
  by rewrite fmap_is_Some.
Qed.
End Store.

(** ** What [node.set] and the retuning steps leave behind *)

Lemma with_params_id n : with_params (λ p, p) n = n.
Proof. by destruct n. Qed.

Lemma set_run id props w : set id props w = (Normal tt, retuned id props w).
Proof.
  revert w. induction props as [|[name v] rest IH]; intros w.
  - cbn. unfold mret, M_ret, retuned, inserts. f_equal.
    destruct w; unfold upd_log, upd_nodes; cbn. f_equal.
    + symmetry. apply alter_id. intros n _. apply with_params_id.
    + by rewrite app_nil_r.
  - cbn [set]. erewrite bind_run by reflexivity. rewrite IH. f_equal.
    destruct w; unfold retuned, upd_log, upd_nodes; cbn. f_equal.
    + rewrite alter_alter_eq. by apply alter_ext.
    + by rewrite <- app_assoc.
Qed.

Lemma opt_set_run r props w :
  opt_call r (λ n, set n props) w = (Normal tt, opt_retuned r props w).
Proof.
  unfold opt_call, opt_retuned. erewrite bind_run by reflexivity.
  destruct (refs w r); [apply set_run | done].
Qed.

Lemma inserts_lookup_ne props p name :
  name ∉ props.*1 → inserts props p !! name = p !! name.
Proof.
  revert p. induction props as [|[n v] rest IH]; intros p Hn; [done|].
  cbn in Hn. apply not_elem_of_cons in Hn as [Hne Hrest].
  unfold inserts. cbn. fold (inserts rest (<[n:=v]> p)).
  rewrite IH by done. by rewrite lookup_insert_ne.
Qed.

Lemma retuned_only_refl rs names w : retuned_only rs names w w.
Proof. split; try done. exists []. by rewrite app_nil_r. Qed.

Lemma retuned_only_trans rs names w1 w2 w3 :
  retuned_only rs names w1 w2 → retuned_only rs names w2 w3 →
  retuned_only rs names w1 w3.
Proof.
  intros H12 H23.
  split; [by (etrans; [apply H23 | apply H12]) .. | | | | |].
  - intros j. etrans; [apply H23 | apply H12].
  - intros j. etrans; [apply H23 | apply H12].
  - intros j name Hn. etrans; [by apply H23 | by apply H12].
  - intros j Hj. etrans; [apply H23 | by apply H12].
    intros r Hr. rewrite (ro_refs _ _ _ _ H12). by apply Hj.
  - destruct (ro_log _ _ _ _ H12) as (e1 & E1 & F1).
    destruct (ro_log _ _ _ _ H23) as (e2 & E2 & F2). rewrite E2, E1.
    exists (e1 ++ e2). split; [by rewrite app_assoc | by apply Forall_app].
Qed.

Lemma opt_retuned_only rs names r props w :
  r ∈ rs → props.*1 ⊆ names →
  retuned_only rs names w (opt_retuned r props w).
Proof.
  intros Hr Hsub. unfold opt_retuned.
  destruct (refs w r) as [id|] eqn:Href; [|apply retuned_only_refl].
  split; try done; cbn.
  - intros j. rewrite lookup_alter. destruct (decide (id = j)) as [->|]; [|done].
    by destruct (nodes w !! j).
  - intros j. unfold node_state. cbn. apply state_alter_params.
  - intros j name Hn. unfold get_param. cbn.
    rewrite param_of_alter_params. case_decide; [|done].
    unfold param_of. destruct (nodes w !! j); [|done]. cbn.
    apply inserts_lookup_ne. intros Hin. apply Hn, Hsub, Hin.
  - intros j Hj. apply lookup_alter_ne. intros ->. by apply (Hj r).
  - eexists. split; [done|]. apply Forall_fmap, Forall_true. by intros [].
Qed.

(** ** The settings effect, step by step *)

Lemma useEffect_settings_run w :
  useEffect_settings w =
  ring_rule (settings (ui w)) (chain_world (settings (ui w)) w).
Proof.
  unfold useEffect_settings. erewrite bind_run by reflexivity.
  do 5 (erewrite bind_run by apply opt_set_run). done.
Qed.

Lemma chain_retuned s w :
  retuned_only chain_refs chain_names w (chain_world s w).
Proof.
  unfold chain_world.
  repeat (eapply retuned_only_trans;
          [|apply opt_retuned_only; by apply (bool_decide_unpack _)]).
  apply retuned_only_refl.
Qed.

(** ** The primitive calls, observed *)

Section Primitives.
Implicit Types (id j : nat) (name : string) (v : OptVal) (w : World).

Lemma set_param_run id name v w :
  set_param id name v w =
  (Normal tt, upd_log (λ l, l ++ [ESet id name v])
                (upd_nodes (alter (with_params (λ p, <[name := v]> p)) id) w)).
Proof. reflexivity. Qed.

Lemma start_run id w :
  start id w =
  (Normal tt, upd_log (λ l, l ++ [EStart id])
                (upd_nodes (alter (with_state started) id) w)).
Proof. reflexivity. Qed.

Lemma stop_run id w :
  stop id w =
  (Normal tt, upd_log (λ l, l ++ [EStop id])
                (upd_nodes (alter (with_state stopped) id) w)).
Proof. reflexivity. Qed.

Lemma node_state_set_param id name v j w :
  node_state j (exec (set_param id name v) w) = node_state j w.
Proof. apply state_alter_params. Qed.

Lemma node_state_start id w :
  is_Some (nodes w !! id) → node_state id (exec (start id) w) = Some started.
Proof. apply state_alter_state. Qed.

Lemma node_state_stop id w :
  is_Some (nodes w !! id) → node_state id (exec (stop id) w) = Some stopped.
Proof. apply state_alter_state. Qed.

Lemma get_param_set_param_eq id name v w :
  is_Some (nodes w !! id) →
  get_param id name (exec (set_param id name v) w) = Some v.
Proof. apply param_of_alter_insert_eq. Qed.

Lemma get_param_set_param_ne id name v j name' w :
  name ≠ name' →
  get_param j name' (exec (set_param id name v) w) = get_param j name' w.
Proof. apply param_of_alter_insert_ne. Qed.

Lemma get_param_start id j name w :
  get_param j name (exec (start id) w) = get_param j name w.
Proof. apply param_of_alter_state. Qed.

Lemma get_param_stop id j name w :
  get_param j name (exec (stop id) w) = get_param j name w.
Proof. apply param_of_alter_state. Qed.

Lemma present_set_param id name v j w :
  is_Some (nodes (exec (set_param id name v) w) !! j) ↔ is_Some (nodes w !! j).
Proof. apply is_Some_alter. Qed.

Lemma present_start id j w :
  is_Some (nodes (exec (start id) w) !! j) ↔ is_Some (nodes w !! j).
Proof. apply is_Some_alter. Qed.

Lemma present_stop id j w :
  is_Some (nodes (exec (stop id) w) !! j) ↔ is_Some (nodes w !! j).
Proof. apply is_Some_alter. Qed.
End Primitives.

Ltac step := erewrite bind_run by reflexivity.

(** Decides a closed proposition by evaluation. *)
Ltac decide_vm := apply (bool_decide_unpack _); vm_compute; exact I.

Lemma ring_rule_run s w osc gain :
  refs w ringModRef = Some osc → refs w ringGainRef = Some gain →
  ring_rule s w = (Normal tt, ring_world s osc gain (node_state osc w) w).
Proof.
  intros Ho Hg. unfold ring_rule, ring_world.
  remember (node_state osc w) as st eqn:Hst.
  do 2 step. rewrite Ho, Hg. step.
  destruct (JS.gt (ringModHz s) 0).
  - step.
    change (node_state osc _) with
      (node_state osc (exec (set_param osc "frequency"
                              (VNum (JS.Math_max 0.0001 (ringModHz s)))) w)).
    rewrite node_state_set_param, <- Hst. by destruct st as [[]|].
  - do 2 step.
    change (node_state osc _) with
      (node_state osc (exec (set_param gain "gain" (VNum 0.0))
         (exec (set_param osc "frequency"
                  (VNum (JS.Math_max 0.0001 (ringModHz s)))) w))).
    rewrite !node_state_set_param, <- Hst. by destruct st as [[]|].
Qed.

Lemma ring_rule_skip s w :
  refs w ringModRef = None ∨ refs w ringGainRef = None →
  ring_rule s w = (Normal tt, w).
Proof.
  intros H. unfold ring_rule. do 2 step.
  destruct H as [-> | ->]; [done|]. by destruct (refs w ringModRef).
Qed.

(** ** What the whole effect can change *)

Lemma tuned_refl w : tuned w w.
Proof. split; try done. exists []. by rewrite app_nil_r. Qed.

Lemma tuned_trans w1 w2 w3 : tuned w1 w2 → tuned w2 w3 → tuned w1 w3.
Proof.
  intros H12 H23.
  split; [by (etrans; [apply H23 | apply H12]) .. | | | |].
  - intros j. etrans; [apply H23 | apply H12].
  - intros j Hj. etrans; [apply H23 | by apply H12].
    by rewrite (tu_refs _ _ H12).
  - intros j Hj. etrans; [apply H23 | by apply H12].
    intros r Hr. rewrite (tu_refs _ _ H12). by apply Hj.
  - destruct (tu_log _ _ H12) as (e1 & E1 & F1).
    destruct (tu_log _ _ H23) as (e2 & E2 & F2). rewrite E2, E1.
    exists (e1 ++ e2). split; [by rewrite app_assoc | by apply Forall_app].
Qed.

Lemma retuned_only_tuned w w' :
  retuned_only chain_refs chain_names w w' → tuned w w'.
Proof.
  intros H. split; try apply H.
  - intros j _. apply H.
  - intros j Hj. apply H. intros r Hr. apply Hj.
    unfold tuned_refs. apply elem_of_app. by left.
  - destruct (ro_log _ _ _ _ H) as (evs & E & F). exists evs. split; [done|].
    eapply Forall_impl; [|exact F]. by intros [].
Qed.

Lemma tuned_set_param r id name v w :
  r ∈ tuned_refs → refs w r = Some id → tuned w (exec (set_param id name v) w).
Proof.
  intros Hr Href. unfold exec. rewrite set_param_run. split; try done.
  - intros j. cbn. rewrite lookup_alter. destruct (decide (id = j)) as [->|]; [|done].
    by destruct (nodes w !! j).
  - intros j _. apply state_alter_params.
  - intros j Hj. apply lookup_alter_ne. intros ->. by apply (Hj r).
  - eexists. split; [done|]. by repeat constructor.
Qed.

Lemma tuned_switch (s : PlaybackState) (e : Event) id w :
  is_tuning e → refs w ringModRef = Some id →
  tuned w (upd_log (λ l, l ++ [e]) (upd_nodes (alter (with_state s) id) w)).
Proof.
  intros He Href. split; try done.
  - intros j. cbn. rewrite lookup_alter. destruct (decide (id = j)) as [->|]; [|done].
    by destruct (nodes w !! j).
  - intros j Hj. unfold node_state. cbn. rewrite lookup_alter_ne; [done|].
    intros ->. by apply Hj.
  - intros j Hj. apply lookup_alter_ne. intros ->. apply (Hj ringModRef); [|done].
    by apply (bool_decide_unpack _).
  - eexists. split; [done|]. by repeat constructor.
Qed.

Lemma ring_world_tuned s osc gain st w :
  refs w ringModRef = Some osc → refs w ringGainRef = Some gain →
  tuned w (ring_world s osc gain st w).
Proof.
  intros Ho Hg. unfold ring_world.
  assert (Hin1 : ringModRef ∈ tuned_refs) by by apply (bool_decide_unpack _).
  assert (Hin2 : ringGainRef ∈ tuned_refs) by by apply (bool_decide_unpack _).
  pose proof (tuned_set_param ringModRef osc "frequency"
    (VNum (JS.Math_max 0.0001 (ringModHz s))) w Hin1 Ho) as H1.
  destruct (JS.gt (ringModHz s) 0).
  - eapply tuned_trans; [|eapply (tuned_set_param ringGainRef); [done|]].
    + destruct st as [[]|]; [exact H1 | |];
        (eapply tuned_trans; [exact H1|]; by apply (tuned_switch started)).
    + by destruct st as [[]|].
  - assert (H2 : tuned w (exec (set_param gain "gain" (VNum 0.0))
      (exec (set_param osc "frequency" (VNum (JS.Math_max 0.0001 (ringModHz s)))) w))).
    { eapply tuned_trans; [exact H1|]. by eapply (tuned_set_param ringGainRef). }
    destruct st as [[]|]; [|exact H2..].
    eapply tuned_trans; [exact H2|]. by apply (tuned_switch stopped).
Qed.

Lemma ring_rule_normal s w : (ring_rule s w).1 = Normal tt.
Proof.
  destruct (refs w ringModRef) as [o|] eqn:Ho;
    [destruct (refs w ringGainRef) as [g|] eqn:Hg|].
  - by erewrite ring_rule_run.
  - rewrite ring_rule_skip; auto.
  - rewrite ring_rule_skip; auto.
Qed.

Lemma ring_rule_tuned s w : tuned w (exec (ring_rule s) w).
Proof.
  unfold exec.
  destruct (refs w ringModRef) as [o|] eqn:Ho;
    [destruct (refs w ringGainRef) as [g|] eqn:Hg|].
  - erewrite ring_rule_run by done. by apply ring_world_tuned.
  - rewrite ring_rule_skip by auto. apply tuned_refl.
  - rewrite ring_rule_skip by auto. apply tuned_refl.
Qed.

Lemma useEffect_settings_normal w : completion useEffect_settings w = Normal tt.
Proof. unfold completion. rewrite useEffect_settings_run. apply ring_rule_normal. Qed.

Lemma useEffect_settings_tuned w : tuned w (exec useEffect_settings w).
Proof.
  unfold exec. rewrite useEffect_settings_run.
  eapply tuned_trans; [apply retuned_only_tuned, chain_retuned|].
  apply ring_rule_tuned.
Qed.

(** * The claims *)

(** ** Settings *)

Lemma get_field_spread_with s key v k :
  get_field k (spread_with s key v) = if decide (k = key) then v else get_field k s.
Proof. by destruct k, key. Qed.

Lemma settings_ext (s1 s2 : EffectSettings) :
  (∀ k, get_field k s1 = get_field k s2) → s1 = s2.
Proof.
  intros H. destruct s1, s2.
  pose proof (H k_pitchSemitones). pose proof (H k_reverbWet).
  pose proof (H k_distortion). pose proof (H k_delayTime).
  pose proof (H k_delayFeedback). pose proof (H k_eqLow).
  pose proof (H k_eqMid). pose proof (H k_eqHigh). pose proof (H k_ringModHz).
  cbn in *. congruence.
Qed.

Lemma ALL_KEYS_complete k : k ∈ ALL_KEYS.
Proof. destruct k; by apply (bool_decide_unpack _). Qed.

(** C8. [setSetting key v] stores a complete settings object: it reads [v]
    at [key] and the previous value at each of the eight other keys, it is
    the only object that does, and nothing else of the page changes. *)
Theorem C8_setSetting_merges_whole_object (key : SettingKey) (v : number) (w : World) :
  let w' := exec (setSetting key v) w in
  completion (setSetting key v) w = Normal tt
  ∧ get_field key (settings (ui w')) = v
  ∧ (∀ k, k ≠ key → get_field k (settings (ui w')) = get_field k (settings (ui w)))
  ∧ (∀ s' : EffectSettings,
       get_field key s' = v →
       (∀ k, k ≠ key → get_field k s' = get_field k (settings (ui w))) →
       s' = settings (ui w'))
  ∧ length ALL_KEYS = 9 ∧ NoDup ALL_KEYS ∧ (∀ k, k ∈ ALL_KEYS)
  ∧ preset (ui w') = preset (ui w)
  ∧ nodes w' = nodes w ∧ edges w' = edges w ∧ refs w' = refs w.
Proof.
  cbn. split_and!; try done.
  - rewrite get_field_spread_with. by rewrite decide_True.
  - intros k Hk. rewrite get_field_spread_with. by rewrite decide_False.
  - intros s' Hkey Hrest. apply settings_ext. intros k.
    rewrite get_field_spread_with. case_decide as Hk; [by subst|by apply Hrest].
  - by apply (bool_decide_unpack _).
  - apply ALL_KEYS_complete.
Qed.

Lemma C8_setSetting_witness :
  get_field k_eqMid
    (settings (ui (exec (setSetting k_ringModHz 90%float) (initial_world initial_host))))
  = get_field k_eqMid (settings (ui (initial_world initial_host))).
Proof.
  apply (C8_setSetting_merges_whole_object k_ringModHz 90%float
           (initial_world initial_host)).
  discriminate.
Defined.

(** ** The settings effect *)

Lemma applySettings_run S w :
  applySettings S w = useEffect_settings (exec (setSettings (λ _, S)) w).
Proof. unfold applySettings, commit. by erewrite bind_run by reflexivity. Qed.

Lemma applySettings_normal S w : completion (applySettings S) w = Normal tt.
Proof.
  unfold completion. rewrite applySettings_run. apply useEffect_settings_normal.
Qed.

Lemma applySettings_tuned S w :
  tuned (exec (setSettings (λ _, S)) w) (exec (applySettings S) w).
Proof.
  unfold exec at 2. rewrite applySettings_run. apply useEffect_settings_tuned.
Qed.

Lemma frame_dom (m m' : gmap nat Node) :
  (∀ j, node_frame <$> m' !! j = node_frame <$> m !! j) → dom m' = dom m.
Proof.
  intros H. apply set_eq. intros j. rewrite !elem_of_dom.
  rewrite <- (fmap_is_Some node_frame (m' !! j)), H. apply fmap_is_Some.
Qed.

Lemma calls_since_app w w' evs : log w' = log w ++ evs → calls_since w w' = evs.
Proof. intros H. unfold calls_since. rewrite H. apply drop_app_length. Qed.

(** C4. For every settings value, applySettings completes and leaves the
    graph as it was: the same connections in the same order, the same
    set of nodes, each of the same kind and neither disposed nor
    replaced, the same refs and no node allocated; the only calls it
    makes are parameter writes and starts or stops, and only the node
    held as ring oscillator can change its playback state. *)
Theorem C4_applySettings_keeps_topology (S : EffectSettings) (w : World) :
  let w' := exec (applySettings S) w in
  completion (applySettings S) w = Normal tt
  ∧ edges w' = edges w
  ∧ dom (nodes w') = dom (nodes w)
  ∧ (∀ j, node_frame <$> nodes w' !! j = node_frame <$> nodes w !! j)
  ∧ refs w' = refs w
  ∧ nextId w' = nextId w
  ∧ Forall is_tuning (calls_since w w')
  ∧ (∀ j, refs w ringModRef ≠ Some j → node_state j w' = node_state j w).
Proof.
  intros w'. pose proof (applySettings_tuned S w) as H. fold w' in H.
  split_and!.
  - apply applySettings_normal.
  - apply H.
  - apply frame_dom, H.
  - apply H.
  - apply H.
  - apply H.
  - destruct (tu_log _ _ H) as (evs & E & F). by rewrite (calls_since_app _ _ evs).
  - intros j Hj. by apply (tu_state _ _ H).
Qed.

Lemma C4_witness :
  node_state 5 (exec (applySettings (PRESETS robot)) built_world)
  = node_state 5 built_world.
Proof.
  apply (C4_applySettings_keeps_topology (PRESETS robot) built_world).
  vm_compute. discriminate.
Defined.

(** ** The ring modulation rule *)

Lemma count_calls_app p l1 l2 :
  count_calls p (l1 ++ l2) = count_calls p l1 + count_calls p l2.
Proof. induction l1 as [|e l1 IH]; cbn; [done|]. rewrite IH. lia. Qed.

Lemma count_calls_sets p evs :
  (∀ id name v, p (ESet id name v) = false) →
  Forall is_ESet evs → count_calls p evs = 0.
Proof.
  intros Hp. induction 1 as [|e evs He _ IH]; [done|].
  cbn. rewrite IH. destruct e; try done. by rewrite Hp.
Qed.

Lemma ring_world_log s osc gain st w :
  log (ring_world s osc gain st w) = log w ++ ring_calls s osc gain st.
Proof.
  unfold ring_world, ring_calls, exec.
  rewrite !set_param_run, start_run, stop_run.
  destruct (JS.gt (ringModHz s) 0), st as [[]|]; cbn;
    by rewrite <- ?app_assoc.
Qed.

(** [a == 0] excludes [a > 0]. *)
Lemma JS_eq_zero_not_gt (a : number) : JS.eq a 0 = true → JS.gt a 0 = false.
Proof.
  unfold JS.eq, JS.gt. rewrite FloatAxioms.eqb_spec, FloatAxioms.ltb_spec.
  destruct (Prim2SF a) as [[]|[]| |[] m e]; cbn; congruence.
Qed.

Lemma applySettings_world S w osc gain :
  refs w ringModRef = Some osc → refs w ringGainRef = Some gain →
  exec (applySettings S) w =
  ring_world S osc gain (node_state osc w)
    (chain_world S (exec (setSettings (λ _, S)) w)).
Proof.
  intros Ho Hg.
  set (w0 := exec (setSettings (λ _, S)) w).
  pose proof (chain_retuned S w0) as Hc.
  unfold exec at 1. rewrite applySettings_run, useEffect_settings_run.
  fold w0. change (settings (ui w0)) with S.
  erewrite ring_rule_run.
  - cbn [snd]. by rewrite (ro_state _ _ _ _ Hc).
  - by rewrite (ro_refs _ _ _ _ Hc).
  - by rewrite (ro_refs _ _ _ _ Hc).
Qed.

Lemma JS_gt_zero_not_nan (a : number) :
  JS.gt a 0 = true → PrimFloat.is_nan a = false.
Proof.
  unfold JS.gt, PrimFloat.is_nan.
  rewrite FloatAxioms.ltb_spec, FloatAxioms.eqb_spec.
  destruct (Prim2SF a) as [[]|[]| |[] m e]; cbn; try congruence.
  intros _. unfold SFeqb, SFcompare. 
  rewrite Z.compare_refl, Pos.compare_cont_refl. done.
Qed.

(** For a positive number, [Math.max(0.0001, a)] is the larger of the
    two. *)
Lemma Math_max_floor (a : number) :
  JS.gt a 0 = true →
  JS.Math_max 0.0001 a = if PrimFloat.ltb 0.0001 a then a else 0.0001%float.
Proof.
  intros H. unfold JS.Math_max. rewrite (JS_gt_zero_not_nan a H).
  change (PrimFloat.is_nan 0.0001) with false. cbn [orb].
  destruct (PrimFloat.ltb 0.0001 a); [done|].
  by destruct (PrimFloat.ltb a 0.0001).
Qed.

(** What the ring modulation block leaves on the oscillator and its gain. *)
Section RingWorld.
Context (s : EffectSettings) (osc gain : nat) (w : World).

Lemma ring_world_gain st :
  is_Some (nodes w !! gain) →
  get_param gain "gain" (ring_world s osc gain st w)
  = Some (VNum (if JS.gt (ringModHz s) 0 then 0.5 else 0)%float).
Proof.
  intros Hg. unfold ring_world. destruct (JS.gt (ringModHz s) 0).
  - apply get_param_set_param_eq.
    destruct st as [[]|]; rewrite ?present_start; by apply present_set_param.
  - destruct st as [[]|]; rewrite ?get_param_stop;
      by apply get_param_set_param_eq, present_set_param.
Qed.

Lemma ring_world_frequency st :
  is_Some (nodes w !! osc) →
  get_param osc "frequency" (ring_world s osc gain st w)
  = Some (VNum (JS.Math_max 0.0001 (ringModHz s))).
Proof.
  intros Ho. unfold ring_world.
  destruct (JS.gt (ringModHz s) 0), st as [[]|];
    rewrite ?get_param_stop, ?(get_param_set_param_ne gain "gain"),
      ?get_param_start by done;
    by apply get_param_set_param_eq.
Qed.

Lemma ring_world_state st :
  node_state osc w = Some st →
  node_state osc (ring_world s osc gain (Some st) w)
  = Some (if JS.gt (ringModHz s) 0 then started else stopped).
Proof.
  intros Hst. assert (Ho : is_Some (nodes w !! osc)).
  { apply (fmap_is_Some state). by exists st. }
  unfold ring_world. destruct (JS.gt (ringModHz s) 0), st;
    rewrite ?node_state_set_param; try done.
  - by apply node_state_start, present_set_param.
  - by apply node_state_stop, present_set_param, present_set_param.
Qed.

End RingWorld.

(** C2. Once the graph is built (the oscillator and its gain exist),
    applySettings with [ringModHz > 0] leaves the ring gain at 0.5 and the
    oscillator started at [Math.max(0.0001, ringModHz)], the larger of
    [ringModHz] and the floor 0.0001, calling [start]
    once if the oscillator was stopped and not at all otherwise, and never
    [stop]; with [ringModHz == 0] it leaves the ring gain at 0 and the
    oscillator stopped, calling [stop] once if it was started and not at
    all otherwise, and never [start]. *)
Theorem C2_ring_modulation_rule (S : EffectSettings) (w : World)
    (osc gain : nat) (st : PlaybackState) :
  refs w ringModRef = Some osc →
  refs w ringGainRef = Some gain →
  node_state osc w = Some st →
  is_Some (nodes w !! gain) →
  let w' := exec (applySettings S) w in
  completion (applySettings S) w = Normal tt
  ∧ (JS.gt (ringModHz S) 0 = true →
       get_param gain "gain" w' = Some (VNum 0.5)
       ∧ node_state osc w' = Some started
       ∧ get_param osc "frequency" w'
         = Some (VNum (JS.Math_max 0.0001 (ringModHz S)))
       ∧ JS.Math_max 0.0001 (ringModHz S)
         = (if PrimFloat.ltb 0.0001 (ringModHz S) then ringModHz S else 0.0001%float)
       ∧ count_calls (is_start_of osc) (calls_since w w')
         = match st with stopped => 1 | started => 0 end
       ∧ count_calls (is_stop_of osc) (calls_since w w') = 0)
  ∧ (JS.eq (ringModHz S) 0 = true →
       get_param gain "gain" w' = Some (VNum 0)
       ∧ node_state osc w' = Some stopped
       ∧ count_calls (is_stop_of osc) (calls_since w w')
         = match st with started => 1 | stopped => 0 end
       ∧ count_calls (is_start_of osc) (calls_since w w') = 0).
Proof.
  intros Ho Hg Hst Hgain w'.
  split; [apply applySettings_normal|].
  set (w0 := exec (setSettings (λ _, S)) w).
  set (wc := chain_world S w0).
  pose proof (chain_retuned S w0) as Hc. fold wc in Hc.
  assert (Hst_c : node_state osc wc = Some st).
  { by rewrite (ro_state _ _ _ _ Hc). }
  assert (Hw' : w' = ring_world S osc gain (Some st) wc).
  { unfold w'. by rewrite (applySettings_world S w osc gain), Hst. }
  assert (Hosc_c : is_Some (nodes wc !! osc)).
  { apply (fmap_is_Some state). change (is_Some (node_state osc wc)).
    rewrite (ro_state _ _ _ _ Hc). by exists st. }
  assert (Hgain_c : is_Some (nodes wc !! gain)).
  { rewrite <- (fmap_is_Some node_frame), (ro_frame _ _ _ _ Hc).
    by apply fmap_is_Some. }
  destruct (ro_log _ _ _ _ Hc) as (evs & Hlog & Hsets).
  assert (Hcalls : calls_since w w' = evs ++ ring_calls S osc gain (Some st)).
  { apply calls_since_app. rewrite Hw', ring_world_log, Hlog.
    by rewrite <- app_assoc. }
  rewrite Hcalls, !count_calls_app,
    !(count_calls_sets _ evs) by (done || apply Hsets).
  rewrite Hw', (ring_world_gain S osc gain wc _ Hgain_c),
    (ring_world_state S osc gain wc _ Hst_c),
    (ring_world_frequency S osc gain wc _ Hosc_c).
  unfold ring_calls. split.
  - intros Hgt. rewrite Hgt. split_and!; try done.
    + by apply Math_max_floor.
    + destruct st; cbn; by rewrite ?bool_decide_eq_true_2.
    + by destruct st.
  - intros Hz. rewrite (JS_eq_zero_not_gt _ Hz). split_and!; try done.
    + destruct st; cbn; by rewrite ?bool_decide_eq_true_2.
    + by destruct st.
Qed.

Lemma C2_witness :
  get_param 8 "gain" (exec (applySettings (PRESETS robot)) built_world)
    = Some (VNum 0.5)
  ∧ node_state 7 (exec (applySettings (PRESETS robot)) built_world) = Some started
  ∧ node_state 7 (exec (applySettings (PRESETS clean))
                    (exec (applySettings (PRESETS robot)) built_world))
    = Some stopped.
Proof.
  assert (H1 : refs built_world ringModRef = Some 7) by by vm_compute.
  assert (H2 : refs built_world ringGainRef = Some 8) by by vm_compute.
  assert (H3 : node_state 7 built_world = Some stopped) by by vm_compute.
  assert (H4 : is_Some (nodes built_world !! 8)) by (eexists; by vm_compute).
  destruct (C2_ring_modulation_rule (PRESETS robot) built_world 7 8 stopped
              H1 H2 H3 H4) as (_ & Hpos & _).
  destruct (Hpos ltac:(by vm_compute)) as (Hgain & Hstate & _).
  split_and!; [exact Hgain | exact Hstate |].
  set (w1 := exec (applySettings (PRESETS robot)) built_world) in *.
  assert (G1 : refs w1 ringModRef = Some 7) by by vm_compute.
  assert (G2 : refs w1 ringGainRef = Some 8) by by vm_compute.
  assert (G4 : is_Some (nodes w1 !! 8)) by (eexists; by vm_compute).
  destruct (C2_ring_modulation_rule (PRESETS clean) w1 7 8 started
              G1 G2 Hstate G4) as (_ & _ & Hzero).
  by destruct (Hzero ltac:(by vm_compute)) as (_ & Hstopped & _).
Defined.

(** ** Reading the settings back from the nodes *)

Section ChainReadBack.
Implicit Types (r : RefName) (props : list (string * OptVal)) (w : World).




End ChainReadBack.









(** ** Building the graph *)

Ltac sim :=
  cbn [exec completion mret M_ret gets modify throw emit
       upd_ui upd_refs upd_recorder upd_chunks upd_nodes upd_edges upd_log
       upd_nextId upd_host upd_downloads
       ui refs mediaRecorderRef recordedChunksRef nodes edges log nextId host
       downloads ctxRunning micGranted faulty defaultMime
       isMicLive isPlayingFile isRecording preset settings fst snd].

Lemma connect_run a b w :
  connect a b w =
  (Normal tt, upd_log (λ l, l ++ [EConnect a b]) (upd_edges (λ l, l ++ [(a, b)]) w)).
Proof. reflexivity. Qed.

(** Everything [buildGraph] does to a page whose next free identifier is
    [n]: nine Tone nodes [n .. 8 + n] and one native destination [9 + n]. *)
Lemma buildGraph_effect S w0 :
  let n := nextId w0 in
  let w1 := exec (buildGraph S) w0 in
  completion (buildGraph S) w0 = Normal tt
  ∧ edges w1 = edges w0 ++
      [(ToneNode n, Tone_Destination);
       (ToneNode (7 + n), ToneNode (8 + n));
       (ToneNode n, ToneNode (1 + n));
       (ToneNode (8 + n), ToneNode (1 + n));
       (ToneNode (1 + n), ToneNode (2 + n));
       (ToneNode (2 + n), ToneNode (3 + n));
       (ToneNode (3 + n), ToneNode (4 + n));
       (ToneNode (4 + n), ToneNode (5 + n));
       (ToneNode (5 + n), ToneNode (6 + n));
       (ToneNode (5 + n), Tone_Destination);
       (Tone_Destination_internal, MediaStreamDestination (9 + n))]
  ∧ log w1 = log w0 ++
      [ENew n PitchShift; EConnect (ToneNode n) Tone_Destination;
       ENew (1 + n) Distortion; ENew (2 + n) FeedbackDelay; ENew (3 + n) Reverb;
       ENew (4 + n) EQ3; ENew (5 + n) Gain; ENew (6 + n) Analyser;
       ENew (7 + n) AMOscillator; ENew (8 + n) Gain;
       EConnect (ToneNode (7 + n)) (ToneNode (8 + n));
       EConnect (ToneNode n) (ToneNode (1 + n));
       EConnect (ToneNode (8 + n)) (ToneNode (1 + n));
       EConnect (ToneNode (1 + n)) (ToneNode (2 + n));
       EConnect (ToneNode (2 + n)) (ToneNode (3 + n));
       EConnect (ToneNode (3 + n)) (ToneNode (4 + n));
       EConnect (ToneNode (4 + n)) (ToneNode (5 + n));
       EConnect (ToneNode (5 + n)) (ToneNode (6 + n));
       EConnect (ToneNode (5 + n)) Tone_Destination;
       ECreateMediaStreamDestination (9 + n);
       EConnect Tone_Destination_internal (MediaStreamDestination (9 + n))]
  ∧ nodes w1 =
      <[8 + n := mkNode Gain
          (list_to_map [("gain", VNum (if JS.gt (ringModHz S) 0 then 0.5 else 0)%float)])
          stopped false false]>
      (<[7 + n := mkNode AMOscillator
          (list_to_map [("frequency", VNum (JS.or (ringModHz S) 1));
                        ("type", VStr "sine"); ("harmonicity", VNum 1.0)])
          stopped false false]>
      (<[6 + n := mkNode Analyser
          (list_to_map [("type", VStr "fft"); ("size", VNum 64)]) stopped false false]>
      (<[5 + n := mkNode Gain (list_to_map [("gain", VNum 0.9)]) stopped false false]>
      (<[4 + n := mkNode EQ3
          (list_to_map [("low", VNum (eqLow S)); ("mid", VNum (eqMid S));
                        ("high", VNum (eqHigh S))]) stopped false false]>
      (<[3 + n := mkNode Reverb
          (list_to_map [("decay", VNum 2.4); ("wet", VNum (reverbWet S))])
          stopped false false]>
      (<[2 + n := mkNode FeedbackDelay
          (list_to_map [("delayTime", VNum (delayTime S));
                        ("feedback", VNum (delayFeedback S))]) stopped false false]>
      (<[1 + n := mkNode Distortion
          (list_to_map [("distortion", VNum (distortion S)); ("oversample", VStr "4x")])
          stopped false false]>
      (<[n := mkNode PitchShift (list_to_map [("pitch", VNum (pitchSemitones S))])
          stopped false false]> (nodes w0)))))))))
  ∧ nextId w1 = 10 + n
  ∧ ui w1 = ui w0
  ∧ (∀ r, refs w1 r =
          match r with
          | pitchShiftRef => Some n
          | distortionRef => Some (1 + n)
          | delayRef => Some (2 + n)
          | reverbRef => Some (3 + n)
          | eqRef => Some (4 + n)
          | finalGainRef => Some (5 + n)
          | analyserRef => Some (6 + n)
          | ringModRef => Some (7 + n)
          | ringGainRef => Some (8 + n)
          | mediaDestRef => Some (9 + n)
          | inputNodeRef | filePlayerRef => refs w0 r
          end).
Proof.
  destruct w0 as [u r mr ch nd ed lg n h dl]. cbn [nextId].
  unfold exec, completion, buildGraph. repeat (step; sim).
  rewrite connect_run. sim. rewrite <- !app_assoc. cbn [app].
  split_and!; try reflexivity.
  intros []; reflexivity.
Qed.





(** ** Teardown *)

Lemma dispose_run id w :
  dispose id w =
  if bool_decide (id ∈ faulty (host w))
  then (Throw (DisposeError id), upd_log (λ l, l ++ [EDispose id]) w)
  else (Normal tt,
        upd_edges (filter (λ e : Edge, e.1 ≠ ToneNode id))
          (upd_nodes (alter released id) (upd_log (λ l, l ++ [EDispose id]) w))).
Proof.
  unfold dispose. do 2 step. cbn [host upd_log].
  by destruct (bool_decide (id ∈ faulty (host w))).
Qed.

Lemma bind_ret_unit (m : M unit) w : (m ;; mret tt) w = m w.
Proof. unfold mbind, M_bind. by destruct (m w) as [[[]|e] w']. Qed.

Lemma cleanup_body_seq w :
  useEffect_mount_cleanup w =
  try_catch (dispose_seq cleanup_order) (λ _, mret tt) w.
Proof.
  unfold useEffect_mount_cleanup, try_catch, cleanup_order. cbn [dispose_seq].
  f_equal. unfold mbind, M_bind.
  repeat (match goal with
          | |- context [opt_call ?r dispose ?w] =>
              destruct (opt_call r dispose w) as [[[]|?] ?]; [|done]
          end).
  done.
Qed.

Lemma opt_dispose_run r w :
  opt_call r dispose w =
  match refs w r with
  | Some id => dispose id w
  | None => (Normal tt, w)
  end.
Proof. unfold opt_call. step. by destruct (refs w r). Qed.

Lemma dispose_seq_effect rs w :
  let ids := omap (refs w) rs in
  let bad := faulty (host w) in
  let w' := exec (dispose_seq rs) w in
  log w' = log w ++ (EDispose <$> attempted bad ids)
  ∧ nodes w' = release_all (good_prefix bad ids) (nodes w)
  ∧ refs w' = refs w ∧ host w' = host w ∧ ui w' = ui w.
Proof.
  revert w. induction rs as [|r rest IH]; intros w; cbn zeta.
  - cbn. by rewrite app_nil_r.
  - unfold exec. cbn [dispose_seq omap list_omap].
    pose proof (opt_dispose_run r w) as Hrun.
    destruct (refs w r) as [id|] eqn:Hr.
    + rewrite (dispose_run id w) in Hrun. cbn [attempted good_prefix].
      destruct (bool_decide (id ∈ faulty (host w))) eqn:Hbad.
      * rewrite (bind_throw _ _ _ _ _ Hrun). by cbn.
      * rewrite (bind_run _ _ _ _ _ Hrun).
        match goal with |- context [dispose_seq rest ?w1] =>
          destruct (IH w1) as (Hl & Hn & Hrf & Hh & Hu); unfold exec in *;
          cbn [refs host log nodes ui upd_edges upd_nodes upd_log] in *
        end.
        rewrite Hl, Hn, Hrf, Hh, Hu. split_and!; try done.
        by rewrite <- app_assoc.
    + rewrite (bind_run _ _ _ _ _ Hrun). apply IH.
Qed.

Lemma dispose_seq_completion rs w :
  completion (try_catch (dispose_seq rs) (λ _, mret tt)) w = Normal tt.
Proof.
  unfold completion, try_catch. by destruct (dispose_seq rs w) as [[[]|e] w'].
Qed.

Lemma released_idemp n : released (released n) = released n.
Proof. done. Qed.

Lemma release_all_lookup ids m j :
  release_all ids m !! j = if bool_decide (j ∈ ids) then released <$> m !! j else m !! j.
Proof.
  revert m. induction ids as [|id ids IH]; intros m; [done|].
  cbn [release_all foldl]. fold (release_all ids (alter released id m)).
  rewrite IH, lookup_alter.
  destruct (decide (id = j)) as [->|Hne].
  - rewrite (bool_decide_eq_true_2 (j ∈ j :: ids)) by apply list_elem_of_here.
    case_bool_decide; [|done]. by destruct (m !! j).
  - case_bool_decide as Hin.
    + by rewrite bool_decide_eq_true_2 by by apply list_elem_of_further.
    + rewrite bool_decide_eq_false_2; [done|].
      intros [?|?]%elem_of_cons; by subst.
Qed.

Lemma good_prefix_all bad ids :
  (∀ id, id ∈ ids → id ∉ bad) → good_prefix bad ids = ids.
Proof.
  induction ids as [|id ids IH]; intros H; [done|]. cbn.
  rewrite bool_decide_eq_false_2 by apply H, list_elem_of_here.
  f_equal. apply IH. intros j Hj. by apply H, list_elem_of_further.
Qed.

(** C5, as the code has it.  The cleanup never throws.  It disposes the
    nodes held by its refs in one fixed order (file player, microphone
    input, pitch shifter, ring oscillator, ring gain, distortion, delay,
    reverb, EQ, analyser, final gain) inside a single error-swallowing
    block: the disposals attempted are the held nodes up to and including
    the first one whose disposal fails; every node before that failure is
    disposed and its microphone stream released; every other node is left
    as it was.  When no disposal fails, every held node is disposed. *)
Theorem C5_teardown_single_guard (w : World) :
  let w' := exec useEffect_mount_cleanup w in
  let ids := held w in
  let bad := faulty (host w) in
  completion useEffect_mount_cleanup w = Normal tt
  ∧ calls_since w w' = EDispose <$> attempted bad ids
  ∧ (∀ id, id ∈ good_prefix bad ids → is_Some (nodes w !! id) →
       disposed <$> nodes w' !! id = Some true
       ∧ streamOpen <$> nodes w' !! id = Some false)
  ∧ (∀ id, id ∉ good_prefix bad ids → nodes w' !! id = nodes w !! id)
  ∧ ((∀ id, id ∈ ids → id ∉ bad) → good_prefix bad ids = ids).
Proof.
  intros w' ids bad.
  assert (Hw' : w' = exec (dispose_seq cleanup_order) w).
  { unfold w', exec. rewrite cleanup_body_seq. unfold try_catch.
    by destruct (dispose_seq cleanup_order w) as [[[]|e] w1]. }
  destruct (dispose_seq_effect cleanup_order w) as (Hl & Hn & _).
  rewrite <- Hw' in Hl, Hn. fold (held w) in Hl, Hn. fold ids bad in Hl, Hn.
  split_and!.
  - unfold completion. rewrite cleanup_body_seq. apply dispose_seq_completion.
  - by apply calls_since_app.
  - intros id Hin [n Hnode]. rewrite Hn, release_all_lookup.
    rewrite bool_decide_eq_true_2 by done. by rewrite Hnode.
  - intros id Hout. rewrite Hn, release_all_lookup.
    by rewrite bool_decide_eq_false_2.
  - apply good_prefix_all.
Qed.

Lemma C5_counterexample :
  let w := pitch_fault_world in
  let w' := exec useEffect_mount_cleanup w in
  held w = [0; 7; 8; 1; 2; 3; 4; 6; 5]
  ∧ faulty (host w) = {[0]}
  ∧ calls_since w w' = [EDispose 0]
  ∧ disposed <$> nodes w' !! 1 = Some false
  ∧ ¬ (∀ id, id ∈ held w → id ∉ faulty (host w) →
         disposed <$> nodes w' !! id = Some true).
Proof.
  cbn zeta. split_and!; try by vm_compute.
  intros H. specialize (H 1).
  assert (H1 : 1 ∈ held pitch_fault_world) by decide_vm.
  assert (H2 : 1 ∉ faulty (host pitch_fault_world)) by decide_vm.
  specialize (H H1 H2). vm_compute in H. discriminate.
Qed.

Lemma C5_witness :
  refs mic_world inputNodeRef = Some 10
  ∧ streamOpen <$> nodes mic_world !! 10 = Some true
  ∧ disposed <$> nodes (exec useEffect_mount_cleanup mic_world) !! 10 = Some true
  ∧ streamOpen <$> nodes (exec useEffect_mount_cleanup mic_world) !! 10 = Some false.
Proof.
  split; [by vm_compute|]. split; [by vm_compute|].
  apply (C5_teardown_single_guard mic_world).
  - decide_vm.
  - eexists. by vm_compute.
Defined.

(** ** Attaching a file *)

Lemma connect_to_ref_run src r dst w :
  refs w r = Some dst →
  connect_to_ref src r w =
  (Normal tt, upd_log (λ l, l ++ [EConnect (ToneNode src) (ToneNode dst)])
                (upd_edges (λ l, l ++ [(ToneNode src, ToneNode dst)]) w)).
Proof. intros H. unfold connect_to_ref. step. by rewrite H. Qed.

(** C6.  On a built graph, and when the previous player (if any) can be
    disposed, [handleFileSelect] completes; its calls are, in order:
    [stop], [disconnect] and [dispose] on the previous player when there
    is one, each once, then the construction of a new player with
    [autostart: false] and its connection to the pitch shifter, the
    graph's entry node.  The new player is stopped, nothing is started,
    and the file-player ref holds the new player. *)
Theorem C6_handleFileSelect_replaces_player (url : string) (w : World) (pitch : nat) :
  refs w pitchShiftRef = Some pitch →
  (∀ old, refs w filePlayerRef = Some old → old ∉ faulty (host w)) →
  let w' := exec (handleFileSelect url) w in
  let player := nextId w in
  completion (handleFileSelect url) w = Normal tt
  ∧ calls_since w w' =
      match refs w filePlayerRef with
      | Some old => [EStop old; EDisconnect old; EDispose old]
      | None => []
      end ++ [ENew player Player; EConnect (ToneNode player) (ToneNode pitch)]
  ∧ (∀ old, refs w filePlayerRef = Some old →
       count_calls (is_dispose_of old) (calls_since w w') = 1)
  ∧ count_calls is_start (calls_since w w') = 0
  ∧ refs w' filePlayerRef = Some player
  ∧ nodes w' !! player =
      Some (mkNode Player
              (list_to_map [("url", VStr url); ("autostart", VBool false);
                            ("loop", VBool false)])
              stopped false false)
  ∧ (∀ old, refs w filePlayerRef = Some old → old ≠ player →
       is_Some (nodes w !! old) → disposed <$> nodes w' !! old = Some true)
  ∧ edges w' =
      match refs w filePlayerRef with
      | Some old => filter (λ e : Edge, e.1 ≠ ToneNode old)
                      (filter (λ e : Edge, e.1 ≠ ToneNode old) (edges w))
      | None => edges w
      end ++ [(ToneNode player, ToneNode pitch)].
Proof.
  intros Hp Hok. destruct w as [u r mr ch nd ed lg n h dl].
  cbn [refs host nextId nodes edges] in *.
  unfold exec, completion, calls_since, handleFileSelect.
  do 2 (step; sim).
  destruct (r filePlayerRef) as [old|] eqn:Hold.
  - assert (Hgood : bool_decide (old ∈ faulty h) = false).
    { apply bool_decide_eq_false_2. by apply Hok. }
    erewrite bind_run;
      [|do 2 (erewrite bind_run by reflexivity); rewrite dispose_run; sim;
        rewrite Hgood; reflexivity].
    sim. step; sim.
    erewrite bind_run by (apply connect_to_ref_run; exact Hp).
    unfold set_ref; sim.
    rewrite <- !app_assoc. cbn [app]. rewrite drop_app_length.
    split_and!; try done.
    + intros ? [= <-]. cbn. by rewrite bool_decide_eq_true_2.
    + apply lookup_insert_eq.
    + intros ? [= <-] Hne [nold Hnold].
      rewrite lookup_insert_ne by done.
      by rewrite lookup_alter_eq, lookup_alter_eq, Hnold.
  - step; sim. step; sim.
    erewrite bind_run by (apply connect_to_ref_run; exact Hp).
    unfold set_ref; sim.
    rewrite <- !app_assoc. cbn [app]. rewrite drop_app_length.
    split_and!; try done. apply lookup_insert_eq.
Qed.

Lemma C6_witness :
  let w := exec (handleFileSelect "blob:first") built_world in
  let w' := exec (handleFileSelect "blob:second") w in
  refs w pitchShiftRef = Some 0
  ∧ refs w filePlayerRef = Some 10
  ∧ calls_since w w' =
      [EStop 10; EDisconnect 10; EDispose 10; ENew 11 Player;
       EConnect (ToneNode 11) (ToneNode 0)]
  ∧ refs w' filePlayerRef = Some 11
  ∧ node_state 11 w' = Some stopped.
Proof.
  cbn zeta.
  set (w := exec (handleFileSelect "blob:first") built_world).
  assert (Hp : refs w pitchShiftRef = Some 0) by by vm_compute.
  assert (Hf : refs w filePlayerRef = Some 10) by by vm_compute.
  assert (Hok : ∀ old, refs w filePlayerRef = Some old → old ∉ faulty (host w)).
  { intros old. rewrite Hf. intros [= <-]. decide_vm. }
  destruct (C6_handleFileSelect_replaces_player "blob:second" w 0 Hp Hok)
    as (_ & Hcalls & _ & _ & Hnew & Hnode & _).
  rewrite Hf in Hcalls.
  assert (Hn : nextId w = 11) by by vm_compute.
  rewrite Hn in Hcalls, Hnew, Hnode.
  split_and!; [exact Hp | exact Hf | exact Hcalls | exact Hnew |].
  unfold node_state. by rewrite Hnode.
Defined.

(** ** Presets by name *)

Lemma PRESETS_object_lookup id :
  PRESETS_object !! PresetId_key id = Some (PRESETS id).
Proof. by destruct id; vm_compute. Qed.

Lemma PRESETS_object_keys s :
  is_Some (PRESETS_object !! s) ↔ ∃ id, s = PresetId_key id.
Proof.
  split.
  - intros [v Hv]. apply elem_of_list_to_map_2 in Hv.
    apply list_elem_of_fmap in Hv as (id & [= -> _] & _). by exists id.
  - intros [id ->]. rewrite PRESETS_object_lookup. by eexists.
Qed.

(** C7, as the code has it.  [applyPreset] takes a [PresetId], one of the
    seven names of the catalog, and the catalog has an entry for each of
    them and for no other name; there is no InvalidPreset error.  For
    every such id the call completes, selects the preset and stores the
    preset's whole settings value: every one of the nine fields of the
    current settings is then the preset's. *)
Theorem C7_applyPreset_total_on_catalog (id : PresetId) (w : World) :
  let w' := exec (applyPreset id) w in
  completion (applyPreset id) w = Normal tt
  ∧ preset (ui w') = id
  ∧ settings (ui w') = PRESETS id
  ∧ (∀ k, get_field k (settings (ui w')) = get_field k (PRESETS id))
  ∧ applyPreset_erased (PresetId_key id) = Normal (PresetId_key id, Some (PRESETS id))
  ∧ length PRESET_IDS = 7 ∧ NoDup (PresetId_key <$> PRESET_IDS)
  ∧ (∀ s, is_Some (PRESETS_object !! s) ↔ ∃ id', s = PresetId_key id').
Proof.
  cbn zeta. split_and!; try done.
  - unfold applyPreset_erased. by rewrite PRESETS_object_lookup.
  - by apply (bool_decide_unpack _).
  - apply PRESETS_object_keys.
Qed.

Lemma C7_counterexample :
  PRESETS_object !! "loud" = None
  ∧ applyPreset_erased "loud" = Normal ("loud", None)
  ∧ ∀ e, applyPreset_erased "loud" ≠ Throw e.
Proof. split_and!; [by vm_compute | by vm_compute | done]. Qed.

(** ** The name of a saved recording *)

Lemma replace_colon_dot_chars ts :
  chars (replace_colon_dot ts)
  = (λ c, if is_colon_or_dot c then "-"%char else c) <$> chars ts.
Proof. induction ts as [|c ts IH]; cbn; [done|]. by rewrite IH. Qed.

Lemma replace_colon_dot_clean ts c :
  c ∈ chars (replace_colon_dot ts) → c ≠ ":"%char ∧ c ≠ "."%char.
Proof.
  rewrite replace_colon_dot_chars. intros (c' & -> & _)%list_elem_of_fmap.
  unfold is_colon_or_dot.
  destruct (bool_decide (c' = ":"%char)) eqn:E1; [by cbn|].
  destruct (bool_decide (c' = "."%char)) eqn:E2; [by cbn|]. cbn.
  by apply bool_decide_eq_false in E1, E2.
Qed.

(** C9, as the code has it.  Stopping a recording saves one file, built
    from the recorded chunks as an "audio/webm" blob, under the name
    [ultra-voice-<ts>.webm], where [<ts>] is the ISO 8601 timestamp of the
    clock with each ':' and each '.' replaced by '-' and every other
    character kept; the extension does not depend on the container the
    platform's recorder chose. *)
Theorem C9_recording_name (iso : string) (w : World) (rec : MediaRecorder) :
  mediaRecorderRef w = Some rec →
  let w' := exec (stopRecording iso) w in
  completion (stopRecording iso) w = Normal tt
  ∧ downloads w' = downloads w ++
      [mkDownload (mkBlob (sum_list (blob_size <$> recordedChunksRef w)) "audio/webm")
                  (download_name iso)]
  ∧ download_name iso = "ultra-voice-" +:+ replace_colon_dot iso +:+ ".webm"
  ∧ download_name iso = spec_download_name iso "webm"
  ∧ String.length (replace_colon_dot iso) = String.length iso
  ∧ chars (replace_colon_dot iso)
    = (λ c, if is_colon_or_dot c then "-"%char else c) <$> chars iso
  ∧ (∀ c, c ∈ chars (replace_colon_dot iso) → c ≠ ":"%char ∧ c ≠ "."%char)
  ∧ isRecording (ui w') = false.
Proof.
  intros Hrec. destruct w as [u r mr ch nd ed lg n h dl]. cbn [mediaRecorderRef] in Hrec.
  subst mr. cbn zeta. unfold exec, completion, stopRecording.
  repeat (step; sim). unfold onstop. repeat (step; sim).
  unfold setIsRecording. sim.
  split_and!; try done.
  - induction iso as [|c iso IH]; cbn; [done|]. by rewrite IH.
  - apply replace_colon_dot_chars.
  - apply replace_colon_dot_clean.
Qed.

Lemma C9_counterexample :
  download_name "2026-11-01T19:06:00.000Z" = "ultra-voice-2026-11-01T19-06-00-000Z.webm"
  ∧ download_name "2026-11-01T19:06:00.000Z"
    ≠ spec_download_name "2026-11-01T19:06:00.000Z" "ogg"
  ∧ ∀ h : Host,
      defaultMime h = "audio/ogg" →
      dl_name <$> downloads
        (exec (stopRecording "2026-11-01T19:06:00.000Z")
           (exec startRecording (exec useEffect_mount (initial_world h))))
      = ["ultra-voice-2026-11-01T19-06-00-000Z.webm"].
Proof.
  split_and!; [by vm_compute | by vm_compute |].
  intros h _. by vm_compute.
Qed.

Lemma C9_witness :
  let w := exec startRecording built_world in
  is_Some (mediaRecorderRef w)
  ∧ dl_name <$> downloads (exec (stopRecording "2026-11-01T19:06:00.000Z") w)
    = ["ultra-voice-2026-11-01T19-06-00-000Z.webm"].
Proof.
  cbn zeta. set (w := exec startRecording built_world).
  assert (Hrec : mediaRecorderRef w = Some (mkRecorder 9 "audio/webm" recording))
    by by vm_compute.
  split; [by eexists|].
  destruct (C9_recording_name "2026-11-01T19:06:00.000Z" w _ Hrec) as (_ & Hd & _).
  rewrite Hd. by vm_compute.
Defined.

(** ** Operations of the page and the final gain *)

Section Keeps.
Context (I : World → Prop).

Lemma keeps_ret {A} (a : A) (P : A → Prop) : P a → keeps I (mret a) P.
Proof. intros Ha w Hw. split; [done|]. by intros ? [= <-]. Qed.

Lemma keeps_throw {A} e (P : A → Prop) : keeps I (throw e) P.
Proof. intros w Hw. by split. Qed.

Lemma keeps_gets {A} (f : World → A) (P : A → Prop) :
  (∀ w, I w → P (f w)) → keeps I (gets f) P.
Proof. intros Hf w Hw. split; [done|]. intros ? [= <-]. by apply Hf. Qed.

Lemma keeps_modify f : (∀ w, I w → I (f w)) → keeps I (modify f) (λ _, True).
Proof. intros Hf w Hw. split; [by apply Hf|done]. Qed.

Lemma keeps_bind {A B} (m : M A) (k : A → M B) (P : A → Prop) (Q : B → Prop) :
  keeps I m P → (∀ a, P a → keeps I (k a) Q) → keeps I (m ≫= k) Q.
Proof.
  intros Hm Hk w Hw. destruct (Hm w Hw) as [Hi Hp].
  unfold exec, completion, mbind, M_bind in *.
  destruct (m w) as [[a|e] w1]; cbn in *; [|by split].
  by apply Hk; [apply Hp|].
Qed.

Lemma keeps_weaken {A} (m : M A) (P Q : A → Prop) :
  keeps I m P → (∀ a, P a → Q a) → keeps I m Q.
Proof. intros Hm HPQ w Hw. destruct (Hm w Hw). split; [done|]. eauto. Qed.

Lemma keeps_seq {A B} (m : M A) (k : M B) (P : A → Prop) (Q : B → Prop) :
  keeps I m P → keeps I k Q → keeps I (m ;; k) Q.
Proof. intros Hm Hk. eapply keeps_bind; [exact Hm|]. by intros. Qed.
End Keeps.

Section FinalGain.
Context (fg : nat) (n0 : Node) (L0 : list Event).
Local Abbreviation Inv := (final_gain_kept fg n0 L0).
Local Abbreviation anyhow := (λ _, True).

Lemma fg_emit e : ¬ about fg e → keeps Inv (emit e) anyhow.
Proof.
  intros He. apply keeps_modify. intros w (H1 & H2 & H3 & H4 & evs & H5 & H6).
  split_and!; try done. exists (evs ++ [e]). cbn. rewrite H5, app_assoc.
  split; [done|]. apply Forall_app. by split; [|constructor].
Qed.

Lemma fg_alter (f : Node → Node) id :
  id ≠ fg → keeps Inv (modify (upd_nodes (alter f id))) anyhow.
Proof.
  intros Hid. apply keeps_modify. intros w (H1 & H2 & H3 & H4 & H5).
  split_and!; try done. cbn. by rewrite lookup_alter_ne.
Qed.

Lemma fg_edges f : keeps Inv (modify (upd_edges f)) anyhow.
Proof. apply keeps_modify. by intros w (H1 & H2 & H3 & H4 & H5). Qed.

Lemma fg_ui f : keeps Inv (modify (upd_ui f)) anyhow.
Proof. apply keeps_modify. by intros w (H1 & H2 & H3 & H4 & H5). Qed.

Lemma fg_host f : keeps Inv (modify (upd_host f)) anyhow.
Proof. apply keeps_modify. by intros w (H1 & H2 & H3 & H4 & H5). Qed.

Lemma fg_recorder f : keeps Inv (modify (upd_recorder f)) anyhow.
Proof. apply keeps_modify. by intros w (H1 & H2 & H3 & H4 & H5). Qed.

Lemma fg_chunks f : keeps Inv (modify (upd_chunks f)) anyhow.
Proof. apply keeps_modify. by intros w (H1 & H2 & H3 & H4 & H5). Qed.

Lemma fg_downloads f : keeps Inv (modify (upd_downloads f)) anyhow.
Proof. apply keeps_modify. by intros w (H1 & H2 & H3 & H4 & H5). Qed.

Lemma fg_set_param id name v : id ≠ fg → keeps Inv (set_param id name v) anyhow.
Proof. intros. eapply keeps_seq; [by apply fg_alter | by apply fg_emit]. Qed.

Lemma fg_set id props : id ≠ fg → keeps Inv (set id props) anyhow.
Proof.
  intros Hid. induction props as [|[name v] rest IH]; [by apply keeps_ret|].
  eapply keeps_seq; [by apply fg_set_param | exact IH].
Qed.

Lemma fg_start id : id ≠ fg → keeps Inv (start id) anyhow.
Proof. intros. eapply keeps_seq; [by apply fg_alter | by apply fg_emit]. Qed.

Lemma fg_stop id : id ≠ fg → keeps Inv (stop id) anyhow.
Proof. intros. eapply keeps_seq; [by apply fg_alter | by apply fg_emit]. Qed.

Lemma fg_disconnect id : id ≠ fg → keeps Inv (disconnect id) anyhow.
Proof. intros. eapply keeps_seq; [by apply fg_edges | by apply fg_emit]. Qed.

Lemma fg_close id : id ≠ fg → keeps Inv (close id) anyhow.
Proof. intros. eapply keeps_seq; [by apply fg_alter | by apply fg_emit]. Qed.

Lemma fg_open id : id ≠ fg → keeps Inv (open id) anyhow.
Proof.
  intros. eapply keeps_seq; [by apply fg_emit|].
  eapply keeps_bind; [by apply (keeps_gets _ _ anyhow)|].
  intros [] _; [by apply fg_alter | apply keeps_throw].
Qed.

Lemma fg_dispose id : id ≠ fg → keeps Inv (dispose id) anyhow.
Proof.
  intros. eapply keeps_seq; [by apply fg_emit|].
  eapply keeps_bind; [by apply (keeps_gets _ _ anyhow)|].
  intros [] _; [apply keeps_throw|].
  eapply keeps_seq; [by apply fg_alter | apply fg_edges].
Qed.

Lemma fg_connect a b :
  a ≠ ToneNode fg → b ≠ ToneNode fg → keeps Inv (connect a b) anyhow.
Proof.
  intros. eapply keeps_seq; [apply fg_edges|]. apply fg_emit. by intros [|].
Qed.

(** A ref other than the final gain's never holds the final gain. *)
Lemma fg_read_ref r :
  r ≠ finalGainRef → keeps Inv (gets (λ w, refs w r)) (λ cur, cur ≠ Some fg).
Proof. intros Hr. apply keeps_gets. intros w (_ & _ & _ & H & _). by apply H. Qed.

Lemma fg_opt_call r (method : nat → M unit) :
  r ≠ finalGainRef → (∀ id, id ≠ fg → keeps Inv (method id) anyhow) →
  keeps Inv (opt_call r method) anyhow.
Proof.
  intros Hr Hm. eapply keeps_bind; [by apply fg_read_ref|].
  intros [id|] Hid; [|by apply keeps_ret]. apply Hm. by intros ->.
Qed.

Lemma fg_connect_to_ref src r :
  src ≠ fg → r ≠ finalGainRef → keeps Inv (connect_to_ref src r) anyhow.
Proof.
  intros Hs Hr. eapply keeps_bind; [by apply fg_read_ref|].
  intros [dst|] Hd; [|apply keeps_throw].
  apply fg_connect; intros [= ?]; by subst.
Qed.

Lemma fg_set_ref r v :
  r ≠ finalGainRef → v ≠ Some fg → keeps Inv (set_ref r v) anyhow.
Proof.
  intros Hr Hv. apply keeps_modify. intros w (H1 & H2 & H3 & H4 & H5).
  split_and!; try done; cbn.
  - by rewrite fn_lookup_insert_ne.
  - intros r' Hr'. destruct (decide (r = r')) as [->|Hne].
    + by rewrite fn_lookup_insert.
    + rewrite fn_lookup_insert_ne by done. by apply H4.
Qed.

(** A freshly constructed node is not the final gain. *)
Lemma fg_new_node k opts : keeps Inv (new_node k opts) (λ id, id ≠ fg).
Proof.
  eapply keeps_bind.
  { apply (keeps_gets _ _ (λ id, fg < id)). by intros w (_ & _ & H & _). }
  intros id Hid. cbv beta in Hid.
  eapply keeps_seq; [|eapply keeps_seq; [|eapply keeps_seq]].
  - apply keeps_modify. intros w (H1 & H2 & H3 & H4 & H5).
    split_and!; try done. cbn. rewrite lookup_insert_ne; [done|lia].
  - apply keeps_modify. intros w (H1 & H2 & H3 & H4 & H5).
    split_and!; try done. cbn. lia.
  - apply fg_emit. cbn. lia.
  - apply keeps_ret. lia.
Qed.

Ltac fg_side := first [assumption | discriminate | congruence | exact Logic.I].

Ltac fg_prim :=
  lazymatch goal with
  | |- keeps _ (throw _) _ => apply keeps_throw
  | |- keeps _ (mret _) _ =>
      first [ apply (keeps_ret _ _ (λ _, True)); exact Logic.I
            | apply keeps_ret; fg_side ]
  | |- keeps _ (gets (λ w, refs w _)) _ => apply fg_read_ref; fg_side
  | |- keeps _ (gets _) _ => apply (keeps_gets _ _ (λ _, True)); done
  | |- keeps _ (new_node _ _) _ => apply fg_new_node
  | |- keeps _ (set_param _ _ _) _ => apply fg_set_param; fg_side
  | |- keeps _ (set _ _) _ => apply fg_set; fg_side
  | |- keeps _ (start _) _ => apply fg_start; fg_side
  | |- keeps _ (stop _) _ => apply fg_stop; fg_side
  | |- keeps _ (disconnect _) _ => apply fg_disconnect; fg_side
  | |- keeps _ (close _) _ => apply fg_close; fg_side
  | |- keeps _ (open _) _ => apply fg_open; fg_side
  | |- keeps _ (dispose _) _ => apply fg_dispose; fg_side
  | |- keeps _ (connect_to_ref _ _) _ => apply fg_connect_to_ref; fg_side
  | |- keeps _ (set_ref _ _) _ => apply fg_set_ref; fg_side
  | |- keeps _ (modify (upd_ui _)) _ => apply fg_ui
  | |- keeps _ (modify (upd_host _)) _ => apply fg_host
  | |- keeps _ (modify (upd_recorder _)) _ => apply fg_recorder
  | |- keeps _ (modify (upd_chunks _)) _ => apply fg_chunks
  | |- keeps _ (modify (upd_downloads _)) _ => apply fg_downloads
  | |- keeps _ (opt_call _ _) _ =>
      apply fg_opt_call; [fg_side | intros ? ?; fg_prim]
  end.

Ltac fg_go :=
  lazymatch goal with
  | |- keeps _ (match ?x with _ => _ end ≫= _) _ => destruct x; fg_go
  | |- keeps _ ((if ?x then _ else _) ≫= _) _ => destruct x; fg_go
  | |- keeps _ (_ ≫= _) _ => eapply keeps_bind; [fg_go | intros ? ?; fg_go]
  | |- keeps _ (match ?x with _ => _ end) _ => destruct x; fg_go
  | |- keeps _ (if ?x then _ else _) _ => destruct x; fg_go
  | |- _ => fg_prim
  end.

Lemma fg_Tone_start : keeps Inv Tone_start anyhow.
Proof. apply fg_host. Qed.

Lemma fg_ring_rule s : keeps Inv (ring_rule s) anyhow.
Proof. unfold ring_rule. fg_go. Qed.

Lemma fg_useEffect_settings : keeps Inv useEffect_settings anyhow.
Proof.
  unfold useEffect_settings. eapply keeps_bind; [fg_prim|]. intros s _.
  do 5 (eapply keeps_seq; [fg_prim|]). apply fg_ring_rule.
Qed.

Lemma fg_commit change :
  keeps Inv change anyhow → keeps Inv (commit change) anyhow.
Proof. intros H. eapply keeps_seq; [exact H | apply fg_useEffect_settings]. Qed.

Lemma fg_perform a : keeps Inv (perform a) anyhow.
Proof.
  destruct a; cbn [perform].
  - apply fg_commit, fg_ui.
  - apply fg_commit. eapply keeps_seq; apply fg_ui.
  - apply fg_commit, fg_ui.
  - unfold handleMicToggle, startTone, setIsMicLive.
    eapply keeps_seq; [apply fg_Tone_start|]. fg_go.
  - unfold handleFileSelect, startTone.
    eapply keeps_seq; [apply fg_Tone_start|]. fg_go.
  - unfold handlePlayPause, startTone, setIsPlayingFile.
    eapply keeps_bind; [fg_prim|]. intros [player|] Hp; [|fg_prim].
    eapply keeps_seq; [apply fg_Tone_start|]. fg_go.
  - unfold startRecording, setIsRecording. fg_go.
  - unfold ondataavailable. fg_go.
  - unfold stopRecording, onstop, setIsRecording. fg_go.
Qed.

Lemma fg_perform_all acts w : Inv w → Inv (perform_all acts w).
Proof.
  revert w. induction acts as [|a acts IH]; intros w Hw; [done|].
  cbn. apply IH. by apply (fg_perform a).
Qed.
End FinalGain.

(** C10.  On a page whose refs hold nothing that is not yet allocated
    (a fresh page has none), [buildGraph] creates the final gain with
    gain 0.9 and stores it in its ref.  After any sequence of the page's
    operations other than the unmounting cleanup (applySettings with any
    settings value, presets, sliders, microphone, file selection, playback,
    recording), the ref still holds that node, the node is exactly as
    created, its gain reads 0.9, and no call made in between names it. *)
Theorem C10_final_gain_untouched (S0 : EffectSettings) (w0 : World)
    (acts : list Action) :
  (∀ r id, refs w0 r = Some id → id < nextId w0) →
  let fg := 5 + nextId w0 in
  let w1 := exec (buildGraph S0) w0 in
  let w2 := perform_all acts w1 in
  refs w1 finalGainRef = Some fg
  ∧ nodes w1 !! fg
    = Some (mkNode Gain (list_to_map [("gain", VNum 0.9)]) stopped false false)
  ∧ get_param fg "gain" w1 = Some (VNum 0.9)
  ∧ refs w2 finalGainRef = Some fg
  ∧ nodes w2 !! fg = nodes w1 !! fg
  ∧ get_param fg "gain" w2 = Some (VNum 0.9)
  ∧ Forall (λ e, ¬ about fg e) (calls_since w1 w2).
Proof.
  intros Hfresh fg w1 w2.
  destruct (buildGraph_effect S0 w0) as (_ & _ & _ & Hn & Hnext & _ & Hr).
  fold w1 in Hn, Hnext, Hr. clearbody w1.
  set (n0 := mkNode Gain (list_to_map [("gain", VNum 0.9)]) stopped false false).
  assert (Hnode : nodes w1 !! fg = Some n0).
  { rewrite Hn. unfold fg. rewrite !lookup_insert_ne by lia. apply lookup_insert_eq. }
  assert (Hinv : final_gain_kept fg n0 (log w1) w1).
  { split_and!.
    - by rewrite Hr.
    - exact Hnode.
    - rewrite Hnext. unfold fg. lia.
    - intros r Hne. rewrite Hr. unfold fg.
      destruct r; try done; try (intros [= ?]; lia);
        intros Hid; apply Hfresh in Hid; lia.
    - exists []. by rewrite app_nil_r. }
  apply (fg_perform_all fg n0 (log w1) acts) in Hinv.
  fold w2 in Hinv. destruct Hinv as (Hr2 & Hn2 & _ & _ & evs & Hl & Hev).
  assert (Hgain : param_of (nodes w1) fg "gain" = Some (VNum 0.9)).
  { unfold param_of. by rewrite Hnode. }
  split_and!.
  - by rewrite Hr.
  - exact Hnode.
  - exact Hgain.
  - exact Hr2.
  - by rewrite Hn2.
  - unfold get_param, param_of. by rewrite Hn2.
  - by rewrite (calls_since_app _ _ _ Hl).
Qed.

Lemma C10_witness :
  let acts := [ChoosePreset robot; ToggleMic; SelectFile "blob:clip";
               MoveSlider k_ringModHz 0%float; ApplySettings (PRESETS alien);
               PlayPause; StartRecording; StopRecording "2026-11-01T19:06:00.000Z"] in
  (∀ r id, refs (initial_world initial_host) r = Some id
           → id < nextId (initial_world initial_host))
  ∧ get_param 5 "gain"
      (perform_all acts (exec (buildGraph (PRESETS clean)) (initial_world initial_host)))
    = Some (VNum 0.9).
Proof.
  cbn zeta.
  assert (H : ∀ r id, refs (initial_world initial_host) r = Some id
                      → id < nextId (initial_world initial_host)) by done.
  split; [exact H|].
  apply (C10_final_gain_untouched (PRESETS clean) (initial_world initial_host) _ H).
Defined.

(** * Further properties of the page *)

(** ** The microphone toggle *)

Lemma open_run_granted id w :
  micGranted (host w) = true →
  open id w =
  (Normal tt, upd_nodes (alter (with_stream true) id)
                (upd_log (λ l, l ++ [EOpen id]) w)).
Proof. intros H. unfold open. do 2 step. cbn [host upd_log]. by rewrite H. Qed.

Lemma open_run_denied id w :
  micGranted (host w) = false →
  open id w = (Throw NotAllowedError, upd_log (λ l, l ++ [EOpen id]) w).
Proof. intros H. unfold open. do 2 step. cbn [host upd_log]. by rewrite H. Qed.

(** X1.  With the graph built, the microphone off and the permission
    granted, [handleMicToggle] completes: it constructs a [UserMedia] node
    with echo cancellation and noise suppression off, opens it, connects it
    to the pitch shifter after the existing connections (none is removed),
    keeps it in the input ref and reports the microphone live. *)
Theorem X1_mic_on (w : World) (pitch : nat) :
  refs w pitchShiftRef = Some pitch →
  isMicLive (ui w) = false →
  micGranted (host w) = true →
  let w' := exec handleMicToggle w in
  let mic := nextId w in
  completion handleMicToggle w = Normal tt
  ∧ calls_since w w' =
      [ENew mic UserMedia; EOpen mic; EConnect (ToneNode mic) (ToneNode pitch)]
  ∧ nodes w' !! mic =
      Some (mkNode UserMedia
              (list_to_map [("echoCancellation", VBool false);
                            ("noiseSuppression", VBool false)])
              stopped false true)
  ∧ edges w' = edges w ++ [(ToneNode mic, ToneNode pitch)]
  ∧ refs w' inputNodeRef = Some mic
  ∧ isMicLive (ui w') = true.
Proof.
  intros Hp Hlive Hgrant. destruct w as [u r mr ch nd ed lg n h dl].
  destruct u as [live playing rec pr st]. cbn in Hp, Hlive, Hgrant. subst live.
  unfold exec, completion, calls_since, handleMicToggle.
  do 2 (step; sim). cbn [negb]. step; sim.
  erewrite bind_run by (apply open_run_granted; exact Hgrant). sim.
  erewrite bind_run by (apply connect_to_ref_run; exact Hp). sim.
  unfold set_ref. step; sim. unfold setIsMicLive; sim.
  rewrite <- !app_assoc. cbn [app]. rewrite drop_app_length.
  split_and!; try done.
  rewrite lookup_alter_eq, lookup_insert_eq. done.
Qed.

Lemma X1_witness :
  let w' := exec handleMicToggle built_world in
  refs w' inputNodeRef = Some 10
  ∧ edges w' = edges built_world ++ [(ToneNode 10, ToneNode 0)].
Proof.
  cbn zeta.
  assert (Hp : refs built_world pitchShiftRef = Some 0) by by vm_compute.
  assert (Hl : isMicLive (ui built_world) = false) by by vm_compute.
  assert (Hg : micGranted (host built_world) = true) by by vm_compute.
  destruct (X1_mic_on built_world 0 Hp Hl Hg) as (_ & _ & _ & He & Hr & _).
  assert (Hn : nextId built_world = 10) by by vm_compute.
  rewrite Hn in He, Hr. by split.
Defined.

Lemma filter_all {A} (P : A → Prop) `{!∀ x, Decision (P x)} (l : list A) :
  (∀ x, x ∈ l → P x) → filter P l = l.
Proof.
  induction l as [|x l IH]; intros Hall; [done|].
  rewrite filter_cons_True by apply Hall, list_elem_of_here.
  f_equal. apply IH. intros y Hy. by apply Hall, list_elem_of_further.
Qed.

Lemma good_prefix_subset bad ids id : id ∈ good_prefix bad ids → id ∈ ids.
Proof.
  induction ids as [|j ids IH]; cbn; [done|].
  case_bool_decide; [by intros ?%elem_of_nil|].
  intros [->|?]%elem_of_cons; [apply list_elem_of_here|].
  by apply list_elem_of_further, IH.
Qed.

Lemma held_elem w id : id ∈ held w → ∃ r, r ∈ cleanup_order ∧ refs w r = Some id.
Proof.
  unfold held. intros (r & Hr & Hid)%list_elem_of_omap. by exists r.
Qed.

(** The node store after the cleanup: the nodes disposed are among the
    held ones. *)
Lemma cleanup_keeps_unheld w id :
  id ∉ held w →
  nodes (exec useEffect_mount_cleanup w) !! id = nodes w !! id.
Proof.
  intros Hid.
  assert (Hw' : exec useEffect_mount_cleanup w = exec (dispose_seq cleanup_order) w).
  { unfold exec. rewrite cleanup_body_seq. unfold try_catch.
    by destruct (dispose_seq cleanup_order w) as [[[]|e] w1]. }
  destruct (dispose_seq_effect cleanup_order w) as (_ & Hn & _).
  rewrite Hw', Hn, release_all_lookup.
  rewrite bool_decide_eq_false_2; [done|].
  intros Hin. by apply Hid, (good_prefix_subset _ _ _ Hin).
Qed.

Lemma handleMicToggle_on_run (w : World) (pitch : nat) :
  refs w pitchShiftRef = Some pitch →
  isMicLive (ui w) = false →
  micGranted (host w) = true →
  handleMicToggle w = (Normal tt, mic_on_world pitch w).
Proof.
  intros Hp Hlive Hgrant. destruct w as [u r mr ch nd ed lg n h dl].
  destruct u as [live playing rec pr st]. cbn in Hp, Hlive, Hgrant. subst live.
  unfold handleMicToggle, mic_on_world.
  do 2 (step; sim). cbn [negb]. step; sim.
  erewrite bind_run by (apply open_run_granted; exact Hgrant). sim.
  erewrite bind_run by (apply connect_to_ref_run; exact Hp). sim.
  unfold set_ref. step; sim. unfold setIsMicLive; sim.
  unfold modify.
  cbv [upd_ui upd_refs upd_log upd_edges upd_nodes upd_nextId upd_host
       ui refs mediaRecorderRef recordedChunksRef nodes edges log nextId host
       downloads isMicLive isPlayingFile isRecording preset settings].
  by rewrite <- !app_assoc.
Qed.
(** Runs the straight-line part of a computation on a world given by its
    components; gmap and list operations stay folded. *)
Ltac run :=
  cbv [mbind M_bind mret M_ret gets modify throw emit exec completion
       upd_ui upd_refs upd_recorder upd_chunks upd_nodes upd_edges upd_log
       upd_nextId upd_host upd_downloads
       ui refs mediaRecorderRef recordedChunksRef nodes edges log nextId host
       downloads ctxRunning micGranted faulty defaultMime
       isMicLive isPlayingFile isRecording preset settings
       startTone Tone_start new_node connect connect_to_ref set_param
       start stop disconnect open close opt_call set_ref
       setIsMicLive setIsPlayingFile setIsRecording setPreset setSettings
       negb fst snd].

Lemma mic_on_off_facts (w : World) (pitch : nat) :
  refs w pitchShiftRef = Some pitch →
  isMicLive (ui w) = false →
  micGranted (host w) = true →
  let mic := nextId w in
  let w1 := exec handleMicToggle w in
  let w2 := exec handleMicToggle w1 in
  completion handleMicToggle w1 = Normal tt
  ∧ calls_since w1 w2 = [EDisconnect mic; EClose mic]
  ∧ edges w2 = filter (λ e : Edge, e.1 ≠ ToneNode mic)
                 (edges w ++ [(ToneNode mic, ToneNode pitch)])
  ∧ (∀ r, refs w2 r = if decide (r = inputNodeRef) then None else refs w r)
  ∧ isMicLive (ui w2) = false
  ∧ streamOpen <$> nodes w2 !! mic = Some false
  ∧ disposed <$> nodes w2 !! mic = Some false.
Proof.
  intros Hp Hlive Hgrant. cbn zeta.
  assert (E1 : exec handleMicToggle w = mic_on_world pitch w).
  { unfold exec. by rewrite (handleMicToggle_on_run w pitch). }
  rewrite !E1. clear E1.
  destruct w as [u r mr ch nd ed lg n h dl].
  destruct u as [live playing rec pr st]. cbn in Hp, Hlive, Hgrant. subst live.
  unfold mic_on_world, calls_since, handleMicToggle. run.
  rewrite !fn_lookup_insert. run.
  rewrite <- app_assoc, drop_app_length.
  split_and!; try done.
  - intros r'. destruct (decide (r' = inputNodeRef)) as [->|Hne].
    + by rewrite fn_lookup_insert.
    + by rewrite !fn_lookup_insert_ne.
  - by rewrite !lookup_alter_eq, lookup_insert_eq.
  - by rewrite !lookup_alter_eq, lookup_insert_eq.
Qed.

(** X2.  Toggling the microphone on and then off, on a built graph whose
    connections and refs only name nodes already allocated: the second
    toggle completes with exactly a [disconnect] and a [close] of the
    microphone node, the connections are again those before the first
    toggle, the input ref is null and the stream released.  The node is
    closed but not disposed, and since no ref holds it any more the
    unmounting cleanup does not dispose it either. *)
Theorem X2_mic_on_off (w : World) (pitch : nat) :
  refs w pitchShiftRef = Some pitch →
  isMicLive (ui w) = false →
  micGranted (host w) = true →
  (∀ e, e ∈ edges w → e.1 ≠ ToneNode (nextId w)) →
  (∀ r id, refs w r = Some id → id < nextId w) →
  let mic := nextId w in
  let w1 := exec handleMicToggle w in
  let w2 := exec handleMicToggle w1 in
  let w3 := exec useEffect_mount_cleanup w2 in
  completion handleMicToggle w1 = Normal tt
  ∧ calls_since w1 w2 = [EDisconnect mic; EClose mic]
  ∧ edges w2 = edges w
  ∧ refs w2 inputNodeRef = None
  ∧ isMicLive (ui w2) = false
  ∧ streamOpen <$> nodes w2 !! mic = Some false
  ∧ disposed <$> nodes w2 !! mic = Some false
  ∧ (mic ∉ held w2)
  ∧ disposed <$> nodes w3 !! mic = Some false.
Proof.
  intros Hp Hlive Hgrant Hedges Hrefs mic w1 w2 w3.
  destruct (mic_on_off_facts w pitch Hp Hlive Hgrant)
    as (H1 & H2 & H3 & H4 & H5 & H6 & H7).
  fold mic w1 w2 in H1, H2, H3, H4, H5, H6, H7.
  assert (Hheld : mic ∉ held w2).
  { intros (r & _ & Hr)%held_elem. rewrite H4 in Hr.
    case_decide; [done|]. apply Hrefs in Hr. unfold mic in Hr. lia. }
  split_and!; try done.
  - rewrite H3, list.filter_app, filter_all by done.
    rewrite filter_cons_False, filter_nil, app_nil_r; [done|].
    intros H. by apply H.
  - unfold w3. by rewrite cleanup_keeps_unheld.
Qed.

Lemma X2_witness :
  let w2 := exec handleMicToggle (exec handleMicToggle built_world) in
  edges w2 = edges built_world
  ∧ disposed <$> nodes (exec useEffect_mount_cleanup w2) !! 10 = Some false.
Proof.
  cbn zeta.
  assert (Hp : refs built_world pitchShiftRef = Some 0) by by vm_compute.
  assert (Hl : isMicLive (ui built_world) = false) by by vm_compute.
  assert (Hg : micGranted (host built_world) = true) by by vm_compute.
  assert (He : ∀ e, e ∈ edges built_world → e.1 ≠ ToneNode (nextId built_world)).
  { apply list.Forall_forall. decide_vm. }
  assert (Hr : ∀ r id, refs built_world r = Some id → id < nextId built_world).
  { intros r id. destruct r; vm_compute; intros [= <-]; lia. }
  destruct (X2_mic_on_off built_world 0 Hp Hl Hg He Hr)
    as (_ & _ & Hedges & _ & _ & _ & _ & _ & Hd).
  assert (Hn : nextId built_world = 10) by by vm_compute.
  rewrite Hn in Hd. by split.
Defined.

(** X3.  When the user refuses the microphone, [handleMicToggle] throws
    [NotAllowedError] at [mic.open()]: the microphone is not reported
    live, the input ref and the connections are as before, and the node
    it had constructed holds no stream. *)
Theorem X3_mic_denied (w : World) :
  isMicLive (ui w) = false →
  micGranted (host w) = false →
  let w' := exec handleMicToggle w in
  let mic := nextId w in
  completion handleMicToggle w = Throw NotAllowedError
  ∧ isMicLive (ui w') = false
  ∧ refs w' = refs w
  ∧ edges w' = edges w
  ∧ calls_since w w' = [ENew mic UserMedia; EOpen mic]
  ∧ streamOpen <$> nodes w' !! mic = Some false.
Proof.
  intros Hlive Hden. destruct w as [u r mr ch nd ed lg n h dl].
  destruct u as [live playing rec pr st]. cbn in Hlive, Hden. subst live.
  unfold exec, completion, calls_since, handleMicToggle.
  do 2 (step; sim). cbn [negb]. step; sim.
  erewrite bind_throw by (apply open_run_denied; exact Hden). sim.
  rewrite <- !app_assoc. cbn [app]. rewrite drop_app_length.
  split_and!; try done. by rewrite lookup_insert_eq.
Qed.

Lemma X3_witness :
  completion handleMicToggle (initial_world (mkHost false false ∅ "audio/webm"))
  = Throw NotAllowedError.
Proof.
  by apply (X3_mic_denied (initial_world (mkHost false false ∅ "audio/webm"))).
Defined.

(** ** Playing the attached file *)

(** X4.  Without an attached file [handlePlayPause] does nothing at all,
    not even resuming the audio context.  With a file attached and not
    playing, one press starts the player and reports it playing; a second
    press stops it and reports it stopped; the two presses make exactly one
    [start] and one [stop] call, on the player. *)
Theorem X4_play_pause (w : World) :
  (refs w filePlayerRef = None → handlePlayPause w = (Normal tt, w))
  ∧ (∀ player,
       refs w filePlayerRef = Some player →
       is_Some (nodes w !! player) →
       isPlayingFile (ui w) = false →
       let w1 := exec handlePlayPause w in
       let w2 := exec handlePlayPause w1 in
       completion handlePlayPause w = Normal tt
       ∧ completion handlePlayPause w1 = Normal tt
       ∧ calls_since w w1 = [EStart player]
       ∧ node_state player w1 = Some started
       ∧ isPlayingFile (ui w1) = true
       ∧ calls_since w1 w2 = [EStop player]
       ∧ node_state player w2 = Some stopped
       ∧ isPlayingFile (ui w2) = false
       ∧ edges w2 = edges w ∧ refs w2 = refs w).
Proof.
  split.
  - intros Hnone. unfold handlePlayPause. erewrite bind_run by reflexivity.
    by rewrite Hnone.
  - intros player Hp [nd0 Hnode] Hplay. destruct w as [u r mr ch nd ed lg n h dl].
    destruct u as [live playing rec pr st]. cbn in Hp, Hnode, Hplay. subst playing.
    cbn zeta. unfold calls_since, handlePlayPause, node_state. run.
    rewrite !Hp. run. rewrite !drop_app_length.
    rewrite !lookup_alter_eq, Hnode.
    by split_and!.
Qed.

Lemma X4_witness :
  let w := exec (handleFileSelect "blob:clip") built_world in
  node_state 10 (exec handlePlayPause w) = Some started
  ∧ node_state 10 (exec handlePlayPause (exec handlePlayPause w)) = Some stopped.
Proof.
  cbn zeta. set (w := exec (handleFileSelect "blob:clip") built_world).
  assert (Hp : refs w filePlayerRef = Some 10) by by vm_compute.
  assert (Hn : is_Some (nodes w !! 10)) by (eexists; by vm_compute).
  assert (Hpl : isPlayingFile (ui w) = false) by by vm_compute.
  destruct (X4_play_pause w) as [_ H].
  destruct (H 10 Hp Hn Hpl) as (_ & _ & _ & H1 & _ & _ & H2 & _). by split.
Defined.

(** ** Attaching a file before the graph exists *)

(** X5.  When the pitch shifter is not constructed yet (and no file was
    attached before), [handleFileSelect] throws at [connect], after it has
    constructed the new player.  The file-player ref is not updated, so no
    ref holds the new player: it is connected to nothing and the
    unmounting cleanup does not dispose it. *)
Theorem X5_file_select_without_graph (url : string) (w : World) :
  refs w pitchShiftRef = None →
  refs w filePlayerRef = None →
  (∀ r id, refs w r = Some id → id < nextId w) →
  let w' := exec (handleFileSelect url) w in
  let player := nextId w in
  (∃ msg, completion (handleFileSelect url) w = Throw (ToneError msg))
  ∧ calls_since w w' = [ENew player Player]
  ∧ refs w' = refs w
  ∧ edges w' = edges w
  ∧ disposed <$> nodes w' !! player = Some false
  ∧ (player ∉ held w')
  ∧ disposed <$> nodes (exec useEffect_mount_cleanup w') !! player = Some false.
Proof.
  intros Hp Hold Hrefs w' player.
  assert (Hfacts :
    (∃ msg, completion (handleFileSelect url) w = Throw (ToneError msg))
    ∧ calls_since w w' = [ENew player Player]
    ∧ refs w' = refs w
    ∧ edges w' = edges w
    ∧ disposed <$> nodes w' !! player = Some false).
  { subst w' player. clear Hrefs. destruct w as [u r mr ch nd ed lg n h dl].
    cbn [refs host nextId nodes edges] in *.
    unfold exec, completion, calls_since, handleFileSelect.
    do 2 (step; sim). rewrite Hold. do 2 (step; sim).
    erewrite bind_throw; [|unfold connect_to_ref; step; sim; rewrite Hp; reflexivity].
    sim. rewrite drop_app_length.
    split_and!; try done; [by eexists | by rewrite lookup_insert_eq]. }
  destruct Hfacts as (H1 & H2 & H3 & H4 & H5).
  assert (Hheld : player ∉ held w').
  { intros (r & _ & Hr)%held_elem. rewrite H3 in Hr.
    apply Hrefs in Hr. unfold player in Hr. lia. }
  split_and!; try done. by rewrite cleanup_keeps_unheld.
Qed.

Lemma X5_witness :
  let w' := exec (handleFileSelect "blob:clip") (initial_world initial_host) in
  refs w' filePlayerRef = None
  ∧ disposed <$> nodes (exec useEffect_mount_cleanup w') !! 0 = Some false.
Proof.
  cbn zeta.
  assert (Hr : ∀ r id, refs (initial_world initial_host) r = Some id
                       → id < nextId (initial_world initial_host)) by done.
  destruct (X5_file_select_without_graph "blob:clip" (initial_world initial_host)
              eq_refl eq_refl Hr) as (_ & _ & Hrefs & _ & _ & _ & Hd).
  split; [by rewrite Hrefs | exact Hd].
Defined.

(** ** A recording session *)

Lemma upd_chunks_compose f g w : upd_chunks f (upd_chunks g w) = upd_chunks (f ∘ g) w.
Proof. by destruct w. Qed.

Lemma deliver_run datas w :
  deliver datas w =
  (Normal tt, upd_chunks (λ l, l ++ filter nonempty_chunk datas) w).
Proof.
  revert w. induction datas as [|d rest IH]; intros w.
  - cbn. unfold mret, M_ret. f_equal. destruct w; unfold upd_chunks; cbn.
    by rewrite app_nil_r.
  - cbn [deliver]. unfold ondataavailable.
    destruct (decide (0 < blob_size d)) as [Hd|Hd].
    + step. rewrite IH, upd_chunks_compose. f_equal.
      rewrite filter_cons_True by done. destruct w; unfold upd_chunks; cbn.
      by rewrite <- app_assoc.
    + step. rewrite IH. by rewrite filter_cons_False.
Qed.

Lemma sum_nonempty_chunks datas :
  sum_list (blob_size <$> filter nonempty_chunk datas) = sum_list (blob_size <$> datas).
Proof.
  induction datas as [|d rest IH]; [done|].
  destruct (decide (nonempty_chunk d)) as [Hd|Hd].
  - rewrite filter_cons_True by done. cbn. by rewrite IH.
  - rewrite filter_cons_False by done. cbn. rewrite IH.
    unfold nonempty_chunk in Hd. lia.
Qed.

(** X6.  A recording session on a built graph (Record, the chunks the
    recorder delivers, Stop) completes and saves exactly one file.  The
    chunks kept are the delivered ones of non-zero size, in order: chunks
    left by an earlier session are discarded and empty chunks are never
    stored.  The saved blob has the total size of the delivered chunks and
    type "audio/webm"; the recorder was bound to the media-stream
    destination; recording is reported off and the audio graph is as it
    was. *)
Theorem X6_record_session (datas : list Blob) (iso : string) (w : World) (dest : nat) :
  refs w mediaDestRef = Some dest →
  let w' := exec (record_session datas iso) w in
  completion (record_session datas iso) w = Normal tt
  ∧ recordedChunksRef w' = filter nonempty_chunk datas
  ∧ downloads w' = downloads w ++
      [mkDownload (mkBlob (sum_list (blob_size <$> datas)) "audio/webm")
                  (download_name iso)]
  ∧ mediaRecorderRef w' = Some (mkRecorder dest (defaultMime (host w)) inactive)
  ∧ isRecording (ui w') = false
  ∧ nodes w' = nodes w ∧ edges w' = edges w ∧ log w' = log w.
Proof.
  intros Hd. destruct w as [u r mr ch nd ed lg n h dl]. cbn [refs] in Hd.
  cbn zeta. unfold exec, completion, record_session.
  erewrite bind_run;
    [|unfold startRecording; step; sim; rewrite Hd; repeat (step; sim);
      unfold setIsRecording; sim; reflexivity].
  erewrite bind_run by apply deliver_run.
  unfold stopRecording, onstop. repeat (step; sim). unfold setIsRecording. sim.
  rewrite !app_nil_l, sum_nonempty_chunks. done.
Qed.

Lemma X6_witness :
  let datas := [mkBlob 120 "audio/webm"; mkBlob 0 "audio/webm"; mkBlob 80 "audio/webm"] in
  let w' := exec (record_session datas "2026-11-01T19:06:00.000Z") built_world in
  recordedChunksRef w' = [mkBlob 120 "audio/webm"; mkBlob 80 "audio/webm"]
  ∧ (blob_size ∘ dl_blob) <$> downloads w' = [200].
Proof.
  cbn zeta.
  assert (Hd : refs built_world mediaDestRef = Some 9) by by vm_compute.
  destruct (X6_record_session
              [mkBlob 120 "audio/webm"; mkBlob 0 "audio/webm"; mkBlob 80 "audio/webm"]
              "2026-11-01T19:06:00.000Z" built_world 9 Hd) as (_ & Hc & Hdl & _).
  rewrite Hc, Hdl. split; by vm_compute.
Defined.

(** ** The settings effect on any settings *)






(** ** The settings stay within the sliders *)

Section SettingsInvariant.
Context (P : EffectSettings → Prop).
Local Abbreviation Keeps := (keeps (λ w, P (settings (ui w)))).

Lemma st_frame f :
  (∀ w, settings (ui (f w)) = settings (ui w)) →
  Keeps (modify f) (λ _, True).
Proof. intros Hf. apply keeps_modify. intros w Hw. by rewrite Hf. Qed.

Lemma st_set id props : Keeps (set id props) (λ _, True).
Proof.
  induction props as [|[name v] rest IH]; [by apply keeps_ret|].
  eapply keeps_seq; [|exact IH].
  eapply keeps_seq; by apply st_frame.
Qed.

Lemma st_useEffect_settings : Keeps useEffect_settings (λ _, True).
Proof.
  intros w Hw. split; [|done].
  by rewrite (tu_ui _ _ (useEffect_settings_tuned w)).
Qed.

Lemma st_setSettings f :
  (∀ s, P s → P (f s)) → Keeps (setSettings f) (λ _, True).
Proof. intros Hf. apply keeps_modify. intros w Hw. by apply Hf. Qed.
End SettingsInvariant.

Ltac st_go :=
  lazymatch goal with
  | |- keeps _ (match ?x with _ => _ end ≫= _) _ => destruct x; st_go
  | |- keeps _ ((if ?x then _ else _) ≫= _) _ => destruct x; st_go
  | |- keeps _ (_ ≫= _) _ => eapply keeps_bind; [st_go | intros ? ?; st_go]
  | |- keeps _ (match ?x with _ => _ end) _ => destruct x; st_go
  | |- keeps _ (if ?x then _ else _) _ => destruct x; st_go
  | |- keeps _ (throw _) _ => apply keeps_throw
  | |- keeps _ (mret _) _ => apply (keeps_ret _ _ (λ _, True)); exact Logic.I
  | |- keeps _ (gets _) _ => apply (keeps_gets _ _ (λ _, True)); done
  | |- keeps _ (modify _) _ => apply st_frame; done
  | |- keeps _ (set _ _) _ => apply st_set
  | |- keeps _ (new_node _ _) _ => unfold new_node; st_go
  | |- keeps _ (connect_to_ref _ _) _ => unfold connect_to_ref; st_go
  | |- keeps _ (connect _ _) _ => unfold connect; st_go
  | |- keeps _ (opt_call _ _) _ => unfold opt_call; st_go
  | |- keeps _ (emit _) _ => unfold emit; st_go
  | |- keeps _ (set_ref _ _) _ => unfold set_ref; st_go
  | |- keeps _ (start _) _ => unfold start; st_go
  | |- keeps _ (stop _) _ => unfold stop; st_go
  | |- keeps _ (disconnect _) _ => unfold disconnect; st_go
  | |- keeps _ (close _) _ => unfold close; st_go
  | |- keeps _ (open _) _ => unfold open; st_go
  | |- keeps _ (dispose _) _ => unfold dispose; st_go
  | |- keeps _ startTone _ => unfold startTone, Tone_start; st_go
  | |- keeps _ (onstop _) _ => unfold onstop; st_go
  | |- keeps _ (setIsMicLive _) _ => unfold setIsMicLive; st_go
  | |- keeps _ (setIsPlayingFile _) _ => unfold setIsPlayingFile; st_go
  | |- keeps _ (setIsRecording _) _ => unfold setIsRecording; st_go
  | |- keeps _ (setPreset _) _ => unfold setPreset; st_go
  end.

Lemma presets_in_range id : settings_in_range (PRESETS id).
Proof. intros k. by destruct id, k; vm_compute. Qed.

Lemma spread_in_range s key v :
  settings_in_range s → in_range key v = true → settings_in_range (spread_with s key v).
Proof.
  intros Hs Hv k. rewrite get_field_spread_with. case_decide; [by subst|apply Hs].
Qed.

Lemma perform_in_range a :
  within_sliders a →
  keeps (λ w, settings_in_range (settings (ui w))) (perform a) (λ _, True).
Proof.
  destruct a; cbn [perform within_sliders]; intros Ha.
  - eapply keeps_seq; [by apply st_setSettings | apply st_useEffect_settings].
  - eapply keeps_seq; [|apply st_useEffect_settings].
    eapply keeps_seq; [st_go|]. apply st_setSettings. intros _ _. apply presets_in_range.
  - eapply keeps_seq; [|apply st_useEffect_settings].
    apply st_setSettings. intros s Hs. by apply spread_in_range.
  - unfold handleMicToggle. st_go.
  - unfold handleFileSelect. st_go.
  - unfold handlePlayPause. st_go.
  - unfold startRecording. st_go.
  - unfold ondataavailable. st_go.
  - unfold stopRecording. st_go.
Qed.

(** A value within [[0, 200]] is either [== 0] or [> 0]. *)
Lemma ring_in_range_cases v :
  in_range k_ringModHz v = true → JS.eq v 0 = true ∨ JS.gt v 0 = true.
Proof.
  unfold in_range, JS.eq, JS.gt. cbn [slider_range r_min r_max].
  intros [H _]%andb_prop. revert H.
  rewrite FloatAxioms.leb_spec, FloatAxioms.eqb_spec, FloatAxioms.ltb_spec.
  destruct (Prim2SF v) as [[]|[]| |[] m e]; cbn; auto; discriminate.
Qed.

(** X9.  The settings never leave the slider ranges: every preset of the
    catalog lies within the [min] and [max] of every slider, so from
    settings within the ranges, any sequence of page operations in which
    sliders deliver values of their own range (and applySettings gets
    settings within the ranges) leaves the current settings within the
    ranges.  In particular the ring frequency is then [== 0] or [> 0], the
    two cases the settings effect distinguishes. *)
Theorem X9_settings_stay_in_range (acts : list Action) (w : World) :
  settings_in_range (settings (ui w)) →
  Forall within_sliders acts →
  let s := settings (ui (perform_all acts w)) in
  settings_in_range s
  ∧ (JS.eq (ringModHz s) 0 = true ∨ JS.gt (ringModHz s) 0 = true)
  ∧ (∀ id, settings_in_range (PRESETS id)).
Proof.
  intros Hw Hacts.
  assert (Hin : settings_in_range (settings (ui (perform_all acts w)))).
  { revert w Hw. induction Hacts as [|a acts Ha _ IH]; intros w Hw; [done|].
    cbn. apply IH. by apply (perform_in_range a Ha w). }
  cbn zeta. split_and!; [done| |apply presets_in_range].
  apply ring_in_range_cases. apply (Hin k_ringModHz).
Qed.

Lemma X9_witness :
  settings_in_range
    (settings (ui (perform_all [ChoosePreset alien; MoveSlider k_delayTime 0.5;
                                ToggleMic; MoveSlider k_ringModHz 0]
                               built_world))).
Proof.
  apply (X9_settings_stay_in_range
           [ChoosePreset alien; MoveSlider k_delayTime 0.5; ToggleMic;
            MoveSlider k_ringModHz 0] built_world).
  - apply (presets_in_range clean).
  - repeat constructor.
Defined.

(** ** What the cleanup leaves behind *)





(** ** The visualizer loop *)

Lemma request_next_fields v :
  let v' := request_next v in
  canvasRef v' = canvasRef v ∧ raf v' = S (last_handle v)
  ∧ pending v' = pending v ++ [S (last_handle v)]
  ∧ last_handle v' = S (last_handle v) ∧ painted v' = painted v.
Proof. done. Qed.

Lemma draw_fields a v :
  let v' := draw a v in
  canvasRef v' = canvasRef v ∧ raf v' = S (last_handle v)
  ∧ pending v' = pending v ++ [S (last_handle v)]
  ∧ last_handle v' = S (last_handle v)
  ∧ painted v' = painted v ++
      match canvasRef v, a with
      | Some c, Some data => if cv_has2d c then paint c data else []
      | _, _ => []
      end.
Proof.
  unfold draw. destruct (canvasRef v) as [c|] eqn:Hc, a as [data|];
    try destruct (cv_has2d c); cbn; rewrite ?app_nil_r; by rewrite ?Hc.
Qed.

Lemma animation_frame_fields a v :
  one_pending v →
  let v' := animation_frame a v in
  one_pending v' ∧ canvasRef v' = canvasRef v ∧ raf v' = S (raf v)
  ∧ painted v' = painted v ++
      match canvasRef v, a with
      | Some c, Some data => if cv_has2d c then paint c data else []
      | _, _ => []
      end.
Proof.
  intros [Hp Hr]. unfold animation_frame. rewrite Hp. cbn [foldl].
  match goal with |- context [draw a ?v0] =>
    destruct (draw_fields a v0) as (Hc & Hraf & Hpend & Hlast & Hpaint)
  end.
  cbn [canvasRef raf pending last_handle painted] in *.
  unfold one_pending. rewrite Hraf, Hpend, Hlast, Hpaint, Hr. done.
Qed.

Lemma animation_frames_fields inputs v :
  one_pending v →
  let v' := animation_frames inputs v in
  one_pending v' ∧ canvasRef v' = canvasRef v
  ∧ raf v' = (raf v + length inputs)%nat.
Proof.
  revert v. induction inputs as [|a inputs IH]; intros v Hv.
  - cbn. split_and!; [done|done|lia].
  - destruct (animation_frame_fields a v Hv) as (H1 & Hc & Hr & _).
    destruct (IH _ H1) as (H2 & Hc2 & Hr2).
    cbn zeta. cbn [animation_frames foldl]. fold (animation_frames inputs (animation_frame a v)).
    rewrite Hc2, Hr2, Hc, Hr. split_and!; [done|done|]. cbn [length]. lia.
Qed.

Lemma frames_after_cleanup inputs v :
  pending v = [] → animation_frames inputs v = v.
Proof.
  intros Hp. induction inputs as [|a inputs IH]; [done|].
  cbn [animation_frames foldl]. fold (animation_frames inputs (animation_frame a v)).
  assert (Hv : animation_frame a v = v).
  { unfold animation_frame. rewrite Hp. cbn. destruct v; cbn in *. by subst. }
  by rewrite Hv.
Qed.

(** X11.  The draw loop keeps exactly one frame callback queued: after
    the effect has mounted and any number of animation frames have run,
    whatever the canvas and the analyser were at each frame (also in the
    two early-return branches), the only callback queued is the one whose
    handle is in [raf], and one callback was requested per frame.  The
    cleanup cancels that callback, so nothing is queued any more and
    later frames neither draw nor queue anything: the loop has ended. *)
Theorem X11_draw_loop (canvas : option Canvas) (h0 : nat)
    (inputs later : list (option (list number))) :
  let v := animation_frames inputs (useEffect_visualizer canvas h0) in
  let v' := useEffect_visualizer_cleanup v in
  pending v = [raf v]
  ∧ raf v = (h0 + 1 + length inputs)%nat
  ∧ pending v' = []
  ∧ painted v' = painted v
  ∧ animation_frames later v' = v'.
Proof.
  assert (H0 : one_pending (useEffect_visualizer canvas h0)) by done.
  destruct (animation_frames_fields inputs _ H0) as ([Hp Hl] & _ & Hr).
  cbn zeta. split_and!.
  - done.
  - rewrite Hr. cbn. lia.
  - unfold useEffect_visualizer_cleanup, cancelAnimationFrame. cbn [pending].
    rewrite Hp. rewrite filter_cons_False, filter_nil; [done|]. by intros H.
  - done.
  - apply frames_after_cleanup.
    unfold useEffect_visualizer_cleanup, cancelAnimationFrame. cbn [pending].
    rewrite Hp. rewrite filter_cons_False, filter_nil; [done|]. by intros H.
Qed.

(** ** What one frame draws *)





(** ** The preset buttons *)

Lemma applyPreset_commit_ui id w :
  ui (exec (commit (applyPreset id)) w)
  = mkUI (isMicLive (ui w)) (isPlayingFile (ui w)) (isRecording (ui w)) id (PRESETS id).
Proof.
  set (w0 := exec (applyPreset id) w).
  assert (Hw' : exec (commit (applyPreset id)) w = exec useEffect_settings w0).
  { unfold w0, exec, commit. by erewrite bind_run by reflexivity. }
  by rewrite Hw', (tu_ui _ _ (useEffect_settings_tuned w0)).
Qed.

(** X13.  The preset grid shows one button per catalog entry, in the
    order of the catalog, labelled with the entry's name in upper case and
    keyed by distinct names.  Whatever the state, exactly one button is
    highlighted, the one of the current [preset].  A click on any rendered
    button makes that button the highlighted one and its catalog record
    the current settings.  Moving a slider does not change the
    highlighted button. *)
Theorem X13_preset_buttons (w : World) :
  pb_label <$> preset_buttons (ui w)
  = ["CLEAN"; "DEEP"; "CHIPMUNK"; "ROBOT"; "RADIO"; "ALIEN"; "ECHO"]
  ∧ NoDup (pb_key <$> preset_buttons (ui w))
  ∧ pb_click <$> filter (λ b, pb_highlighted b = true) (preset_buttons (ui w))
    = [preset (ui w)]
  ∧ (∀ b, b ∈ preset_buttons (ui w) →
       let w' := exec (click b) w in
       filter (λ b', pb_highlighted b' = true) (preset_buttons (ui w'))
       = [mkPresetButton (pb_key b) (pb_label b) true (pb_click b)]
       ∧ settings (ui w') = PRESETS (pb_click b))
  ∧ (∀ key v,
       preset_buttons (ui (exec (commit (setSetting key v)) w))
       = preset_buttons (ui w)).
Proof.
  split_and!.
  - done.
  - decide_vm.
  - unfold preset_buttons. by destruct (preset (ui w)).
  - intros b Hb. cbn zeta. unfold click. rewrite applyPreset_commit_ui.
    unfold preset_buttons in Hb. apply list_elem_of_fmap in Hb as (id & -> & _).
    cbn [pb_click pb_key pb_label]. split; [|done].
    unfold preset_buttons. cbn [preset]. by destruct id.
  - intros key v. set (w0 := exec (setSetting key v) w).
    assert (Hw' : exec (commit (setSetting key v)) w = exec useEffect_settings w0).
    { unfold w0, exec, commit. by erewrite bind_run by reflexivity. }
    by rewrite Hw', (tu_ui _ _ (useEffect_settings_tuned w0)).
Qed.

Lemma X13_witness :
  settings (ui (exec (click (mkPresetButton "robot" "ROBOT" false robot)) built_world))
  = PRESETS robot.
Proof.
  destruct (X13_preset_buttons built_world) as (_ & _ & _ & H & _).
  apply (H (mkPresetButton "robot" "ROBOT" false robot)).
  apply list_elem_of_fmap. exists robot. split; [by vm_compute|]. decide_vm.
Defined.
